(** * fleet-tracker-backend: the presence and location relay of [src/server.js]

    The three socket listeners of [server.js] ([driver-active],
    [update-location], [disconnect]) are embedded as programs of a small
    state-and-exception monad over a [World] that holds the MongoDB
    collection behind the [Location] model, the sockets of the socket.io
    namespace, the [driverId] property the code stores on each socket object,
    the events emitted and the console.

    A listener is a program that may [await] a store call.  It is run in
    two ways: alone, its store call answered at once ([dispatch]), and by the
    event loop ([run]), where the listener is left at its [await], the store
    answers later, and the listeners of other events run in between. *)

From Stdlib Require Import QArith.
From stdpp Require Import gmap strings list.

Local Open Scope string_scope.
Local Open Scope Z_scope.
Local Open Scope list_scope.

#[local] Set Warnings "-register-all".

(** ** JavaScript values of the wire format *)

Module Js.

(** The payload of a socket.io event: a JSON value, or [undefined] when the
    client sent no argument.  A JSON number is a finite double, hence a
    rational, written in lowest terms. *)
Inductive JSValue : Type :=
| JUndefined
| JNull
| JBool (b : bool)
| JNum (q : Q)
| JStr (s : string)
| JArr (items : list JSValue)
| JObj (fields : list (string * JSValue)).

Definition Q_eqb (p q : Q) : bool :=
  (Qnum p =? Qnum q) && (Qden p =? Qden q)%positive.

(** Equality of two values, as a filter is matched against a field:
    structural. *)
Fixpoint js_eqb (a b : JSValue) {struct a} : bool :=
  match a, b with
  | JUndefined, JUndefined => true
  | JNull, JNull => true
  | JBool x, JBool y => Bool.eqb x y
  | JNum p, JNum q => Q_eqb p q
  | JStr s, JStr t => String.eqb s t
  | JArr xs, JArr ys =>
      (fix go (l : list JSValue) (r : list JSValue) {struct l} : bool :=
         match l, r with
         | [], [] => true
         | x :: l', y :: r' => js_eqb x y && go l' r'
         | _, _ => false
         end) xs ys
  | JObj fs, JObj gs =>
      (fix go (l : list (string * JSValue)) (r : list (string * JSValue))
           {struct l} : bool :=
         match l, r with
         | [], [] => true
         | (k, x) :: l', (k', y) :: r' =>
             String.eqb k k' && js_eqb x y && go l' r'
         | _, _ => false
         end) fs gs
  | _, _ => false
  end.

(** [ToBoolean]: [undefined], [null], [false], zero and the empty string
    are falsy, everything else (arrays and objects included) is truthy. *)
Definition truthy (v : JSValue) : bool :=
  match v with
  | JUndefined | JNull => false
  | JBool b => b
  | JNum q => negb (Qnum q =? 0)
  | JStr s => negb (String.eqb s "")
  | JArr _ | JObj _ => true
  end.

(** First binding of a key in an object literal. *)
Fixpoint assoc (k : string) (fs : list (string * JSValue)) : option JSValue :=
  match fs with
  | [] => None
  | (k', v) :: fs' => if String.eqb k k' then Some v else assoc k fs'
  end.

(** [v.k] for a name [k] that is no built-in property of strings or arrays
    ([driverId], [coordinates]): [None] is the [TypeError] of reading a
    property of [undefined] or [null]; a primitive or an array has no such
    property and yields [undefined]. *)
Definition get_prop (v : JSValue) (k : string) : option JSValue :=
  match v with
  | JUndefined | JNull => None
  | JObj fs => Some (default JUndefined (assoc k fs))
  | _ => Some JUndefined
  end.

(** Whether an object has an own property [k]. *)
Fixpoint has_key (k : string) (fs : list (string * JSValue)) : bool :=
  match fs with
  | [] => false
  | (k', _) :: fs' => String.eqb k k' || has_key k fs'
  end.

(** Whether [ToString(v)], as a template literal applies it, returns: a
    primitive always has a string; an array joins the strings of its
    elements; an object takes [Object.prototype.toString], unless it has an
    own [toString] property, which in a value of the wire format is never a
    function, and then, [valueOf] yielding no primitive either, the
    conversion throws a [TypeError]. *)
Fixpoint has_string_conversion (v : JSValue) : bool :=
  match v with
  | JArr items =>
      (fix all (l : list JSValue) : bool :=
         match l with
         | [] => true
         | x :: l' => has_string_conversion x && all l'
         end) items
  | JObj fs => negb (has_key "toString" fs)
  | _ => true
  end.

End Js.

Import Js.

(** The induction principle that reaches below arrays and objects. *)
Section JSValue_rect_nested.
Variable P : JSValue → Prop.
Hypothesis Hundef : P JUndefined.
Hypothesis Hnull : P JNull.
Hypothesis Hbool : ∀ b, P (JBool b).
Hypothesis Hnum : ∀ q, P (JNum q).
Hypothesis Hstr : ∀ s, P (JStr s).
Hypothesis Harr : ∀ items, Forall P items → P (JArr items).
Hypothesis Hobj : ∀ fields, Forall (λ kv, P kv.2) fields → P (JObj fields).

Fixpoint JSValue_ind_nested (v : JSValue) : P v :=
  match v with
  | JUndefined => Hundef
  | JNull => Hnull
  | JBool b => Hbool b
  | JNum q => Hnum q
  | JStr s => Hstr s
  | JArr items =>
      Harr items
        ((fix go (l : list JSValue) : Forall P l :=
            match l with
            | [] => List.Forall_nil _
            | x :: l' =>
                @List.Forall_cons _ P x l' (JSValue_ind_nested x) (go l')
            end) items)
  | JObj fields =>
      Hobj fields
        ((fix go (l : list (string * JSValue)) : Forall (λ kv, P kv.2) l :=
            match l with
            | [] => List.Forall_nil _
            | (k, x) :: l' =>
                @List.Forall_cons _ (λ kv, P kv.2) (k, x) l'
                  (JSValue_ind_nested x) (go l')
            end) fields)
  end.
End JSValue_rect_nested.

(** ** The [Location] collection *)

Module Mongo.

Inductive Status : Type := online | offline.

(** Milliseconds since the epoch, the value of [new Date()]. *)
Definition Date : Type := Z.

(** Modelled from the spec: the schema of [models/Locations.js] is not among
    the sources; a document has the fields of the spec's DriverRecord
    ([driverId], [status], [lastSeen], optional [coordinates]).  A field
    that no write has set yet is absent. *)
Record Doc : Type := mkDoc {
  driverId : JSValue;
  status : option Status;
  lastSeen : option Date;
  coordinates : option JSValue
}.

(** The update document of a call: the fields it sets. *)
Record Update : Type := mkUpdate {
  set_status : option Status;
  set_lastSeen : option Date;
  set_coordinates : option JSValue
}.

Definition overwrite {A} (new old : option A) : option A :=
  match new with Some a => Some a | None => old end.

Definition apply_update (u : Update) (r : Doc) : Doc :=
  {| driverId := driverId r;
     status := overwrite (set_status u) (status r);
     lastSeen := overwrite (set_lastSeen u) (lastSeen r);
     coordinates := overwrite (set_coordinates u) (coordinates r) |}.

Definition fresh_doc (d : JSValue) : Doc :=
  {| driverId := d; status := None; lastSeen := None; coordinates := None |}.

(** [findOneAndUpdate({driverId: d}, u, {upsert})] on the documents of the
    collection: the first document whose [driverId] is [d] gets the fields
    of [u]; when there is none, [upsert] inserts one and the plain call
    changes nothing. *)
Fixpoint findOneAndUpdate (d : JSValue) (u : Update) (upsert : bool)
    (coll : list Doc) : list Doc :=
  match coll with
  | [] => if upsert then [apply_update u (fresh_doc d)] else []
  | r :: rest =>
      if js_eqb (driverId r) d then apply_update u r :: rest
      else r :: findOneAndUpdate d u upsert rest
  end.

(** [findOne({driverId: d})]. *)
Fixpoint findOne (d : JSValue) (coll : list Doc) : option Doc :=
  match coll with
  | [] => None
  | r :: rest => if js_eqb (driverId r) d then Some r else findOne d rest
  end.

(** [countDocuments({driverId: d})]. *)
Fixpoint countDocuments (d : JSValue) (coll : list Doc) : nat :=
  match coll with
  | [] => O
  | r :: rest =>
      (if js_eqb (driverId r) d then 1 else 0)%nat + countDocuments d rest
  end.

(** The data model's invariant: at most one document per [driverId]. *)
Definition unique_keys (coll : list Doc) : Prop :=
  ∀ d, (countDocuments d coll ≤ 1)%nat.

(** The status a reader of the collection sees for driver [d]. *)
Definition status_of (d : JSValue) (coll : list Doc) : option Status :=
  r ← findOne d coll; status r.

Record Call : Type := mkCall {
  call_filter : JSValue;
  call_update : Update;
  call_upsert : bool
}.

End Mongo.

Import Mongo.

(** ** The server's world *)

Definition SocketId : Type := string.

(** One [emit]: the sockets it is sent to, the event name and the payload. *)
Record Emission : Type := mkEmission {
  recipients : gset SocketId;
  event : string;
  payload : JSValue
}.

Inductive Exn : Type :=
| TypeError
| StoreError (msg : string).

(** The [console.log] and [console.error] call sites of [server.js]. *)
Inductive ConsoleLine : Type :=
| LogConnectionEstablished (id : SocketId)
| ErrDriverIdMissing
| LogDriverOnline (d : JSValue)
| ErrSettingOnline (error : Exn)
| ErrSavingLocation (error : Exn)
| LogDriverOffline (d : JSValue)
| ErrSettingOffline (error : Exn)
| LogUserDisconnected (id : SocketId).

Record World : Type := mkWorld {
  (** the documents of the [Location] collection *)
  collection : list Doc;
  (** every call sent to the store, in the order sent *)
  db_calls : list Call;
  (** the sockets connected to the namespace, those [io.emit] reaches *)
  nsp_sockets : gset SocketId;
  (** the ids of the sockets that have closed; socket.io gives an id to one
      connection only *)
  closed_ids : gset SocketId;
  (** the [driverId] property set on socket objects *)
  sock_driverId : gmap SocketId JSValue;
  (** what was emitted, oldest first *)
  outbox : list Emission;
  console : list ConsoleLine
}.

(** The writes to the world. *)
Definition log (l : ConsoleLine) (w : World) : World :=
  {| collection := collection w; db_calls := db_calls w;
     nsp_sockets := nsp_sockets w; closed_ids := closed_ids w;
     sock_driverId := sock_driverId w;
     outbox := outbox w; console := console w ++ [l] |}.

Definition set_socket_driverId (socket : SocketId) (d : JSValue) (w : World)
    : World :=
  {| collection := collection w; db_calls := db_calls w;
     nsp_sockets := nsp_sockets w; closed_ids := closed_ids w;
     sock_driverId := <[socket := d]> (sock_driverId w);
     outbox := outbox w; console := console w |}.

Definition emit_to (to : gset SocketId) (name : string) (data : JSValue)
    (w : World) : World :=
  {| collection := collection w; db_calls := db_calls w;
     nsp_sockets := nsp_sockets w; closed_ids := closed_ids w;
     sock_driverId := sock_driverId w;
     outbox := outbox w ++ [mkEmission to name data]; console := console w |}.

(** A call is sent to the store. *)
Definition issue (c : Call) (w : World) : World :=
  {| collection := collection w; db_calls := db_calls w ++ [c];
     nsp_sockets := nsp_sockets w; closed_ids := closed_ids w;
     sock_driverId := sock_driverId w;
     outbox := outbox w; console := console w |}.

(** The store carries a call out. *)
Definition store_applies (c : Call) (w : World) : World :=
  {| collection :=
       findOneAndUpdate (call_filter c) (call_update c) (call_upsert c)
         (collection w);
     db_calls := db_calls w;
     nsp_sockets := nsp_sockets w; closed_ids := closed_ids w;
     sock_driverId := sock_driverId w;
     outbox := outbox w; console := console w |}.

(** A new socket object joins the namespace; it has no [driverId] property. *)
Definition nsp_add (id : SocketId) (w : World) : World :=
  {| collection := collection w; db_calls := db_calls w;
     nsp_sockets := {[id]} ∪ nsp_sockets w; closed_ids := closed_ids w;
     sock_driverId := delete id (sock_driverId w);
     outbox := outbox w; console := console w |}.

(** The socket leaves the namespace; the object and its properties stay
    reachable from the listeners' closure. *)
Definition nsp_remove (id : SocketId) (w : World) : World :=
  {| collection := collection w; db_calls := db_calls w;
     nsp_sockets := nsp_sockets w ∖ {[id]};
     closed_ids := {[id]} ∪ closed_ids w;
     sock_driverId := sock_driverId w;
     outbox := outbox w; console := console w |}.

(** The value of [socket.driverId]: [undefined] until assigned. *)
Definition binding (socket : SocketId) (w : World) : JSValue :=
  default JUndefined (sock_driverId w !! socket).

Definition initial : World :=
  {| collection := []; db_calls := []; nsp_sockets := ∅; closed_ids := ∅;
     sock_driverId := ∅; outbox := []; console := [] |}.

(** ** Listener programs *)

(** How the store answers a call. *)
Inductive Answer : Type :=
| Fulfilled
| Rejected (msg : string).

(** The body of an [async] function: it returns, throws, writes to the
    world, reads a property of a socket object, or awaits a store call and
    goes on with the answer. *)
Inductive Prog (A : Type) : Type :=
| Ret (a : A)
| Throw (e : Exn)
| Effect (f : World → World) (k : Prog A)
| Read (q : World → JSValue) (k : JSValue → Prog A)
| Await (c : Call) (k : Answer → Prog A).
Arguments Ret {A} a.
Arguments Throw {A} e.
Arguments Effect {A} f k.
Arguments Read {A} q k.
Arguments Await {A} c k.

Definition ret {A} (a : A) : Prog A := Ret a.
Definition throw {A} (e : Exn) : Prog A := Throw e.

Fixpoint bind {A B} (m : Prog A) (k : A → Prog B) : Prog B :=
  match m with
  | Ret a => k a
  | Throw e => Throw e
  | Effect f m' => Effect f (bind m' k)
  | Read q j => Read q (λ v, bind (j v) k)
  | Await c j => Await c (λ a, bind (j a) k)
  end.

(** [try { body } catch (e) { handler e }]: it also catches what [body]
    throws after an [await]. *)
Fixpoint try_catch {A} (body : Prog A) (handler : Exn → Prog A) : Prog A :=
  match body with
  | Ret a => Ret a
  | Throw e => handler e
  | Effect f m => Effect f (try_catch m handler)
  | Read q j => Read q (λ v, try_catch (j v) handler)
  | Await c j => Await c (λ a, try_catch (j a) handler)
  end.

Notation "x <- c1 ;; c2" := (bind c1 (λ x, c2))
  (at level 100, c1 at next level, right associativity).
Notation "c1 ;; c2" := (bind c1 (λ _, c2))
  (at level 100, right associativity).

(** [a || b] of JavaScript: [b] is evaluated only when [a] is false. *)
Definition js_or (a b : Prog bool) : Prog bool :=
  x <- a ;; if x then ret true else b.

(** [v.k], throwing the [TypeError] of a nullish [v]. *)
Definition prop (v : JSValue) (k : string) : Prog JSValue :=
  match get_prop v k with
  | Some x => ret x
  | None => throw TypeError
  end.

Definition console_write (l : ConsoleLine) : Prog unit :=
  Effect (log l) (ret tt).

(** [console.log] of a template literal that interpolates [v]: the literal
    is evaluated first, and [ToString(v)] may throw. *)
Definition console_log_template (v : JSValue) (l : ConsoleLine) : Prog unit :=
  if has_string_conversion v then console_write l else throw TypeError.

(** [socket.driverId] *)
Definition read_socket_driverId (socket : SocketId) : Prog JSValue :=
  Read (binding socket) ret.

(** [socket.driverId = d] *)
Definition assign_socket_driverId (socket : SocketId) (d : JSValue)
    : Prog unit :=
  Effect (set_socket_driverId socket d) (ret tt).

(** [io.emit(name, data)]: to every socket connected to the namespace. *)
Definition io_emit (name : string) (data : JSValue) : Prog unit :=
  Effect (λ w, emit_to (nsp_sockets w) name data w) (ret tt).

(** [socket.broadcast.emit(name, data)]: to every connected socket but
    [socket]. *)
Definition socket_broadcast_emit (socket : SocketId) (name : string)
    (data : JSValue) : Prog unit :=
  Effect (λ w, emit_to (nsp_sockets w ∖ {[socket]}) name data w) (ret tt).

(** The value of an awaited call: a rejected call throws. *)
Definition settled (a : Answer) : Prog unit :=
  match a with
  | Fulfilled => ret tt
  | Rejected msg => throw (StoreError msg)
  end.

(** [await c] *)
Definition await (c : Call) : Prog unit := Await c settled.

(** [Location.findOneAndUpdate({driverId: d}, u, {upsert})] *)
Definition Location_findOneAndUpdate (d : JSValue) (u : Update)
    (upsert : bool) : Call :=
  mkCall d u upsert.

(** The [$set] documents the listeners write. *)
Definition set_online (t : Date) : Update :=
  {| set_status := Some online; set_lastSeen := Some t;
     set_coordinates := None |}.
Definition set_offline (t : Date) : Update :=
  {| set_status := Some offline; set_lastSeen := Some t;
     set_coordinates := None |}.
Definition set_position (t : Date) (c : JSValue) : Update :=
  {| set_status := None; set_lastSeen := Some t; set_coordinates := Some c |}.

(** Modelled from the spec: [saveLocation] of [services/locationService.js]
    is not among the sources.  The spec has it upsert the record's
    [coordinates] and [lastSeen] without touching [status]. *)
Definition saveLocation (t : Date) (d : JSValue) (coords : JSValue) : Call :=
  Location_findOneAndUpdate d (set_position t coords) true.

(** ** The listeners of [io.on("connection", ...)] *)

Definition status_update (d : JSValue) (s : string) : JSValue :=
  JObj [("driverId", d); ("status", JStr s)].

(** The body of the [connection] listener, besides registering the others. *)
Definition on_connection (socket : SocketId) : Prog unit :=
  console_write (LogConnectionEstablished socket).

(** [socket.on("driver-active", async (data) => ...)]; [t] is what
    [new Date()] gives. *)
Definition on_driver_active (t : Date) (socket : SocketId) (data : JSValue)
    : Prog unit :=
  missing <- js_or (ret (negb (truthy data)))
                   (d <- prop data "driverId" ;; ret (negb (truthy d))) ;;
  if (missing : bool) then
    console_write ErrDriverIdMissing
  else
    driverId <- prop data "driverId" ;;
    assign_socket_driverId socket driverId ;;
    console_log_template driverId (LogDriverOnline driverId) ;;
    try_catch
      (await (Location_findOneAndUpdate driverId (set_online t) true) ;;
       io_emit "status-update" (status_update driverId "online"))
      (λ error, console_write (ErrSettingOnline error)).

(** [socket.on("update-location", async (data) => ...)] *)
Definition on_update_location (t : Date) (socket : SocketId) (data : JSValue)
    : Prog unit :=
  d <- prop data "driverId" ;;
  if negb (truthy d) then ret tt
  else
    try_catch
      (driverId <- prop data "driverId" ;;
       coords <- prop data "coordinates" ;;
       await (saveLocation t driverId coords) ;;
       socket_broadcast_emit socket "location-received" data)
      (λ error, console_write (ErrSavingLocation error)).

(** [socket.on("disconnect", async () => ...)] *)
Definition on_disconnect (t : Date) (socket : SocketId) : Prog unit :=
  bound <- read_socket_driverId socket ;;
  (if truthy bound then
     logged <- read_socket_driverId socket ;;
     console_log_template logged (LogDriverOffline logged) ;;
     try_catch
       (d <- read_socket_driverId socket ;;
        await (Location_findOneAndUpdate d (set_offline t) false) ;;
        d' <- read_socket_driverId socket ;;
        io_emit "status-update" (status_update d' "offline"))
       (λ error, console_write (ErrSettingOffline error))
   else ret tt) ;;
  console_write (LogUserDisconnected socket).

(** The rest of each listener from its [await] on. *)
Definition after_online_write (driverId : JSValue) (a : Answer) : Prog unit :=
  try_catch
    (settled a ;; io_emit "status-update" (status_update driverId "online"))
    (λ error, console_write (ErrSettingOnline error)).

Definition after_saveLocation (socket : SocketId) (data : JSValue)
    (a : Answer) : Prog unit :=
  try_catch
    (settled a ;; socket_broadcast_emit socket "location-received" data)
    (λ error, console_write (ErrSavingLocation error)).

Definition after_offline_write (socket : SocketId) (a : Answer) : Prog unit :=
  try_catch
    (settled a ;;
     d' <- read_socket_driverId socket ;;
     io_emit "status-update" (status_update d' "offline"))
    (λ error, console_write (ErrSettingOffline error)) ;;
  console_write (LogUserDisconnected socket).

(** ** The transport *)

(** What socket.io hands to the server: a new connection, a named message of
    a connected socket, the close of a connection. *)
Inductive TransportEvent : Type :=
| Connection (id : SocketId)
| Incoming (id : SocketId) (name : string) (data : JSValue)
| Disconnect (id : SocketId).

(** What socket.io does with an event before it calls a listener, and the
    listener it calls.  A connection brings an id that is not in use and
    was not used; a message is delivered for a connected socket, to the
    listener registered under its name; a closing socket is removed from
    the namespace before [disconnect] fires. *)
Definition transport (t : Date) (ev : TransportEvent) (w : World)
    : World * Prog unit :=
  match ev with
  | Connection id =>
      if bool_decide (id ∈ nsp_sockets w ∪ closed_ids w) then (w, ret tt)
      else (nsp_add id w, on_connection id)
  | Incoming id name data =>
      if negb (bool_decide (id ∈ nsp_sockets w)) then (w, ret tt)
      else if String.eqb name "driver-active" then
             (w, on_driver_active t id data)
      else if String.eqb name "update-location" then
             (w, on_update_location t id data)
      else (w, ret tt)
  | Disconnect id =>
      if negb (bool_decide (id ∈ nsp_sockets w)) then (w, ret tt)
      else (nsp_remove id w, on_disconnect t id)
  end.

(** ** A listener run alone *)

Inductive Completion (A : Type) : Type :=
| Normal (a : A)
| Threw (e : Exn).
Arguments Normal {A} a.
Arguments Threw {A} e.

Definition M (A : Type) : Type := World → Completion A * World.

Definition answer_of (fault : option string) : Answer :=
  match fault with
  | None => Fulfilled
  | Some msg => Rejected msg
  end.

(** What the store does with a call: it carries it out, or rejects it and
    leaves the collection as it was. *)
Definition store_answers (c : Call) (fault : option string) (w : World)
    : World :=
  match fault with
  | None => store_applies c w
  | Some _ => w
  end.

(** The program run to its end with no other event in between: each call
    it awaits is sent, answered at once, and the program goes on. *)
Fixpoint alone {A} (fault : option string) (p : Prog A) : M A :=
  λ w,
    match p with
    | Ret a => (Normal a, w)
    | Throw e => (Threw e, w)
    | Effect f k => alone fault k (f w)
    | Read q k => alone fault (k (q w)) w
    | Await c k =>
        alone fault (k (answer_of fault)) (store_answers c fault (issue c w))
    end.

(** What the environment decides for an event handled alone: the clock, and
    whether the store call of the listener is rejected. *)
Record Env : Type := mkEnv {
  now : Date;
  store_fault : option string
}.

(** One event, its listener run alone. *)
Definition dispatch (env : Env) (ev : TransportEvent) : M unit :=
  λ w, alone (store_fault env) (transport (now env) ev w).2
         (transport (now env) ev w).1.

(** ** The event loop *)

(** Where a program stops first: at its end, at an exception that escapes
    it, or at an [await], with the call it sent and the rest of the
    program. *)
Inductive Pause (A : Type) : Type :=
| Returned (a : A)
| Escaped (e : Exn)
| Suspended (c : Call) (k : Answer → Prog A).
Arguments Returned {A} a.
Arguments Escaped {A} e.
Arguments Suspended {A} c k.

Fixpoint advance {A} (p : Prog A) (w : World) : Pause A * World :=
  match p with
  | Ret a => (Returned a, w)
  | Throw e => (Escaped e, w)
  | Effect f k => advance k (f w)
  | Read q k => advance (k (q w)) w
  | Await c k => (Suspended c k, issue c w)
  end.

(** A listener waiting at its [await]: the call it sent, the answer of the
    store once there is one, and the rest of the listener. *)
Record Task : Type := mkTask {
  task_call : Call;
  task_answer : option Answer;
  task_resume : Answer → Prog unit
}.

Record Server : Type := mkServer {
  world : World;
  tasks : gmap nat Task;
  next_ticket : nat
}.

(** What happens next: an event arrives and its listener runs up to its
    [await]; the store carries out or rejects a call that waits; the
    listener that waits for an answered call goes on. *)
Inductive Tick : Type :=
| Arrive (t : Date) (ev : TransportEvent)
| StoreAnswers (ticket : nat) (fault : option string)
| Resume (ticket : nat).

Definition park (r : Pause unit * World) (s : Server)
    : Completion unit * Server :=
  match r with
  | (Returned _, w) =>
      (Normal tt,
       {| world := w; tasks := tasks s; next_ticket := next_ticket s |})
  | (Escaped e, w) =>
      (Threw e,
       {| world := w; tasks := tasks s; next_ticket := next_ticket s |})
  | (Suspended c k, w) =>
      (Normal tt,
       {| world := w;
          tasks := <[next_ticket s := mkTask c None k]> (tasks s);
          next_ticket := S (next_ticket s) |})
  end.

Definition tick (x : Tick) (s : Server) : Completion unit * Server :=
  match x with
  | Arrive t ev =>
      park (advance (transport t ev (world s)).2 (transport t ev (world s)).1)
        s
  | StoreAnswers n fault =>
      match tasks s !! n with
      | Some (mkTask c None k) =>
          (Normal tt,
           {| world := store_answers c fault (world s);
              tasks := <[n := mkTask c (Some (answer_of fault)) k]> (tasks s);
              next_ticket := next_ticket s |})
      | _ => (Normal tt, s)
      end
  | Resume n =>
      match tasks s !! n with
      | Some (mkTask c (Some a) k) =>
          park (advance (k a) (world s))
            {| world := world s; tasks := delete n (tasks s);
               next_ticket := next_ticket s |}
      | _ => (Normal tt, s)
      end
  end.

(** A run of the server; an exception that escapes a listener ends it. *)
Fixpoint run (xs : list Tick) (s : Server) : Completion unit * Server :=
  match xs with
  | [] => (Normal tt, s)
  | x :: rest =>
      match tick x s with
      | (Normal _, s') => run rest s'
      | (Threw e, s') => (Threw e, s')
      end
  end.

(** The server with no listener waiting. *)
Definition idle (w : World) : Server :=
  {| world := w; tasks := ∅; next_ticket := 0 |}.

(** The result and the final state of a run. *)
Definition outcome {S A} (m : S → Completion A * S) (s : S) : Completion A :=
  (m s).1.
Definition exec {S A} (m : S → Completion A * S) (s : S) : S := (m s).2.

(** The guard of the [driver-active] listener passes: the payload carries a
    truthy [driverId]. *)
Definition has_driverId (data : JSValue) : bool :=
  match get_prop data "driverId" with
  | Some d => truthy d
  | None => false
  end.

(** The driverId an event binds [socket] to: that of a [driver-active]
    message of [socket] which passes the guard. *)
Definition checkin_of (socket : SocketId) (ev : TransportEvent)
    : option JSValue :=
  match ev with
  | Incoming id name data =>
      if String.eqb id socket && String.eqb name "driver-active"
         && has_driverId data
      then get_prop data "driverId" else None
  | _ => None
  end.

(** An [update-location] message, the one event whose store write is made
    by [saveLocation]. *)
Definition is_location_update (ev : TransportEvent) : bool :=
  match ev with
  | Incoming _ name _ => String.eqb name "update-location"
  | _ => false
  end.

(** The answer to the store write of an event's listener run alone: [None]
    when the listener sends no call to the store. *)
Definition store_write_of (env : Env) (ev : TransportEvent) (w : World)
    : option Answer :=
  match (advance (transport (now env) ev w).2 (transport (now env) ev w).1).1
  with
  | Suspended _ _ => Some (answer_of (store_fault env))
  | _ => None
  end.

(** The listeners that can wait at an [await] in a world: a check-in at
    its online write, a position update at [saveLocation], and the close of
    a socket at its offline write; the closed socket has left the namespace
    and its [driverId] property is the driverId of the call. *)
Inductive Waiting (w : World) : Task → Prop :=
| waiting_online D t a :
    truthy D = true → has_string_conversion D = true →
    Waiting w
      (mkTask (mkCall D (set_online t) true) a (after_online_write D))
| waiting_location socket data D c t a :
    Waiting w
      (mkTask (saveLocation t D c) a (after_saveLocation socket data))
| waiting_offline socket D t a :
    socket ∉ nsp_sockets w → socket ∈ closed_ids w →
    sock_driverId w !! socket = Some D →
    truthy D = true → has_string_conversion D = true →
    Waiting w
      (mkTask (mkCall D (set_offline t) false) a
         (after_offline_write socket)).




(** ** Sample inputs *)

Module Sample.
Definition works (t : Date) : Env := {| now := t; store_fault := None |}.
Definition fails (t : Date) : Env :=
  {| now := t; store_fault := Some "ECONNREFUSED" |}.

Definition checkin (d : string) : JSValue := JObj [("driverId", JStr d)].

(** A check-in whose driverId is an object with an own [toString]. *)
Definition checkin_unprintable : JSValue :=
  JObj [("driverId", JObj [("toString", JNum (1 # 1))])].

Definition position : JSValue :=
  JObj [("latitude", JNum (802 # 25)); ("longitude", JNum (1739 # 50))].

(** [{driverId: "d1", coordinates: {...}}] *)
Definition location : JSValue :=
  JObj [("driverId", JStr "d1"); ("coordinates", position)].

(** The same with one more field, as a client may send it. *)
Definition location_with_speed : JSValue :=
  JObj [("driverId", JStr "d1"); ("coordinates", position);
        ("speed", JNum (40 # 1))].

(** Sockets A and B connected, nothing else yet. *)
Definition two_sockets : World :=
  {| collection := []; db_calls := [];
     nsp_sockets := {["A"; "B"]}; closed_ids := ∅; sock_driverId := ∅;
     outbox := []; console := [] |}.

(** The same with a record of driver d1, online. *)
Definition d1_online : World :=
  {| collection := [mkDoc (JStr "d1") (Some online) (Some 10) None];
     db_calls := [];
     nsp_sockets := {["A"; "B"]}; closed_ids := ∅;
     sock_driverId := {["A" := JStr "d1"]};
     outbox := []; console := [] |}.

(** Both sockets bound to driver d1. *)
Definition d1_twice : World :=
  {| collection := [mkDoc (JStr "d1") (Some online) (Some 10) None];
     db_calls := [];
     nsp_sockets := {["A"; "B"]}; closed_ids := ∅;
     sock_driverId := {["A" := JStr "d1"; "B" := JStr "d1"]};
     outbox := []; console := [] |}.
End Sample.

(** ** Process start *)

Module Boot.

(** The two variables [server.js] reads from [process.env]; a variable that
    is not set reads as [undefined]. *)
Record ProcessEnv : Type := mkProcessEnv {
  env_PORT : option string;
  env_MONGO_URI : option string
}.

Definition env_value (v : option string) : JSValue :=
  match v with
  | Some s => JStr s
  | None => JUndefined
  end.

(** [const PORT = process.env.PORT || 3000] *)
Definition PORT (pe : ProcessEnv) : JSValue :=
  if truthy (env_value (env_PORT pe)) then env_value (env_PORT pe)
  else JNum (3000 # 1).

(** [const MONGO_URI = process.env.MONGO_URI] *)
Definition MONGO_URI (pe : ProcessEnv) : JSValue := env_value (env_MONGO_URI pe).

(** What a call [server.listen(arg, callback)] does: the server starts to
    accept connections, on whatever Node makes of [arg] (a port, a port the
    system chooses, a pipe), and the callback runs; or the call throws; or
    it fails later with an [error] event that nothing handles. *)
Inductive ListenOutcome : Type :=
| Listens
| ListenThrows (message : string)
| ListenErrorEvent.

(** What is outside the program at start: whether [mongoose.connect] is
    rejected, and what [server.listen] does with the argument it is given. *)
Record Outside : Type := mkOutside {
  connect_fault : option string;
  listen_does : JSValue → ListenOutcome
}.

(** The console call sites of [startServer]. *)
Inductive BootLine : Type :=
| LogMongoConnected
| LogServerRunning (port : JSValue)
| ErrDatabaseConnectionFailed (message : string).

Record Process : Type := mkProcess {
  (** the arguments of the calls to [mongoose.connect] *)
  connect_calls : list JSValue;
  (** the first arguments of the calls to [server.listen] *)
  listen_calls : list JSValue;
  (** the server accepts connections: the callback of [listen] has run *)
  accepting : bool;
  boot_console : list BootLine;
  (** the exit code, once the process has ended *)
  exit_code : option Z
}.

Definition idle : Process :=
  {| connect_calls := []; listen_calls := []; accepting := false;
     boot_console := []; exit_code := None |}.

(** The [try] block of [startServer]: the message of the error it throws, if
    any, and the process so far. *)
Definition startServer_try (pe : ProcessEnv) (o : Outside) (p : Process)
    : option string * Process :=
  if negb (truthy (MONGO_URI pe)) then
    (Some "MONGO_URI is missing in .env file", p)
  else
    let p1 := {| connect_calls := connect_calls p ++ [MONGO_URI pe];
                 listen_calls := listen_calls p;
                 accepting := accepting p;
                 boot_console := boot_console p;
                 exit_code := exit_code p |} in
    match connect_fault o with
    | Some message => (Some message, p1)
    | None =>
        let p2 := {| connect_calls := connect_calls p1;
                     listen_calls := listen_calls p1 ++ [PORT pe];
                     accepting := accepting p1;
                     boot_console := boot_console p1 ++ [LogMongoConnected];
                     exit_code := exit_code p1 |} in
        match listen_does o (PORT pe) with
        | Listens =>
            (None,
             {| connect_calls := connect_calls p2;
                listen_calls := listen_calls p2;
                accepting := true;
                boot_console :=
                  boot_console p2 ++ [LogServerRunning (PORT pe)];
                exit_code := exit_code p2 |})
        | ListenThrows message => (Some message, p2)
        | ListenErrorEvent =>
            (None,
             {| connect_calls := connect_calls p2;
                listen_calls := listen_calls p2;
                accepting := false;
                boot_console := boot_console p2;
                exit_code := Some 1 |})
        end
    end.

(** [startServer()]: the [catch] block logs the message and calls
    [process.exit(1)]. *)
Definition startServer (pe : ProcessEnv) (o : Outside) : Process :=
  match startServer_try pe o idle with
  | (None, p) => p
  | (Some message, p) =>
      {| connect_calls := connect_calls p;
         listen_calls := listen_calls p;
         accepting := accepting p;
         boot_console :=
           boot_console p ++ [ErrDatabaseConnectionFailed message];
         exit_code := Some 1 |}
  end.

End Boot.
(** * Properties *)

(** ** Equality of values *)

Lemma Q_eqb_eq p q : Q_eqb p q = true ↔ p = q.
Proof.
  destruct p as [a b], q as [c d]; unfold Q_eqb; simpl.
  rewrite andb_true_iff, Z.eqb_eq, Pos.eqb_eq.
  split; [intros [-> ->]; reflexivity | intros [= -> ->]; auto].
Qed.

Lemma js_eqb_eq a : ∀ b, js_eqb a b = true ↔ a = b.
Proof.
  induction a using JSValue_ind_nested; intros [] ; simpl;
    try (split; [discriminate | intros [=]]); try tauto.
  - rewrite Bool.eqb_true_iff. split; [congruence | intros [=]; done].
  - rewrite Q_eqb_eq. split; [congruence | intros [=]; done].
  - rewrite String.eqb_eq. split; [congruence | intros [=]; done].
  - rename items0 into ys.
    revert ys. induction H as [|x xs Hx Hxs IH]; intros [|y ys];
      try (split; [discriminate | intros [=]]); try tauto.
    rewrite andb_true_iff, Hx, IH.
    split; [intros [-> [= ->]]; done | intros [= -> ->]; done].
  - rename fields0 into gs.
    revert gs. induction H as [|[k x] xs Hx Hxs IH]; intros [|[k' y] ys];
      try (split; [discriminate | intros [=]]); try tauto.
    simpl in Hx.
    rewrite !andb_true_iff, String.eqb_eq, Hx, IH.
    split; [intros [[-> ->] [= ->]]; done | intros [= -> -> ->]; done].
Qed.

Lemma js_eqb_spec a b : reflect (a = b) (js_eqb a b).
Proof.
  destruct (js_eqb a b) eqn:E; constructor.
  - by apply js_eqb_eq.
  - intros Hab. apply js_eqb_eq in Hab. congruence.
Qed.

Lemma js_eqb_refl a : js_eqb a a = true.
Proof. by apply js_eqb_eq. Qed.

Lemma js_eqb_ne a b : a ≠ b → js_eqb a b = false.
Proof. intros H. by destruct (js_eqb_spec a b). Qed.

(** ** The collection *)

Section Collection.
Implicit Types (d : JSValue) (u : Update) (coll : list Doc).

Lemma driverId_apply_update u r : driverId (apply_update u r) = driverId r.
Proof. reflexivity. Qed.

Lemma findOne_upsert d u coll :
  findOne d (findOneAndUpdate d u true coll)
  = Some (apply_update u (default (fresh_doc d) (findOne d coll))).
Proof.
  induction coll as [|r rest IH]; simpl.
  - by rewrite js_eqb_refl.
  - destruct (js_eqb (driverId r) d) eqn:E; simpl; by rewrite E.
Qed.

Lemma findOne_update_only d u coll :
  findOne d (findOneAndUpdate d u false coll)
  = apply_update u <$> findOne d coll.
Proof.
  induction coll as [|r rest IH]; simpl; [done|].
  destruct (js_eqb (driverId r) d) eqn:E; simpl; by rewrite E.
Qed.

Lemma findOne_other d d' u upsert coll :
  d ≠ d' →
  findOne d' (findOneAndUpdate d u upsert coll) = findOne d' coll.
Proof.
  intros Hne. induction coll as [|r rest IH]; simpl.
  - destruct upsert; simpl; [|done]. by rewrite js_eqb_ne.
  - destruct (js_eqb_spec (driverId r) d) as [E|E]; simpl.
    + rewrite !js_eqb_ne; congruence.
    + by rewrite IH.
Qed.

Lemma update_only_absent d u coll :
  findOne d coll = None → findOneAndUpdate d u false coll = coll.
Proof.
  induction coll as [|r rest IH]; simpl; [done|].
  destruct (js_eqb (driverId r) d); [done|]. intros H. by rewrite IH.
Qed.

Lemma upsert_absent d u coll :
  findOne d coll = None →
  findOneAndUpdate d u true coll = coll ++ [apply_update u (fresh_doc d)].
Proof.
  induction coll as [|r rest IH]; simpl; [done|].
  destruct (js_eqb (driverId r) d); [done|]. intros H. by rewrite IH.
Qed.

Lemma length_present d u upsert coll :
  is_Some (findOne d coll) →
  length (findOneAndUpdate d u upsert coll) = length coll.
Proof.
  induction coll as [|r rest IH]; simpl.
  - by intros [? ?].
  - destruct (js_eqb (driverId r) d); simpl; [done|].
    intros H. by rewrite IH.
Qed.

Lemma count_other d d' u upsert coll :
  d ≠ d' →
  countDocuments d' (findOneAndUpdate d u upsert coll)
  = countDocuments d' coll.
Proof.
  intros Hne. induction coll as [|r rest IH]; simpl.
  - destruct upsert; simpl; [|done]. by rewrite js_eqb_ne.
  - destruct (js_eqb_spec (driverId r) d) as [E|E]; simpl.
    + rewrite !js_eqb_ne; congruence.
    + by rewrite IH.
Qed.

Lemma count_upsert d u coll :
  countDocuments d (findOneAndUpdate d u true coll)
  = Nat.max 1 (countDocuments d coll).
Proof.
  induction coll as [|r rest IH]; simpl.
  - by rewrite js_eqb_refl.
  - destruct (js_eqb (driverId r) d) eqn:E; simpl; rewrite E.
    + lia.
    + simpl in IH. by rewrite IH.
Qed.

Lemma count_update_only d u coll :
  countDocuments d (findOneAndUpdate d u false coll) = countDocuments d coll.
Proof.
  induction coll as [|r rest IH]; simpl; [done|].
  destruct (js_eqb (driverId r) d) eqn:E; simpl; rewrite E; [done|].
  by rewrite IH.
Qed.

Lemma findOne_count d coll :
  findOne d coll = None ↔ countDocuments d coll = 0%nat.
Proof.
  induction coll as [|r rest IH]; simpl; [done|].
  destruct (js_eqb (driverId r) d); simpl; [split; [done|lia]|done].
Qed.
End Collection.

(** ** Programs *)

Lemma get_prop_truthy data k D :
  get_prop data k = Some D → truthy D = true → truthy data = true.
Proof. destruct data; simpl; intros [= <-]; done. Qed.

Lemma has_driverId_true data :
  has_driverId data = true
  ↔ ∃ D, get_prop data "driverId" = Some D ∧ truthy D = true.
Proof.
  unfold has_driverId. destruct (get_prop data "driverId") as [D|].
  - split; [eauto|]. by intros (? & [= <-] & ?).
  - split; [done|]. by intros (? & ? & _).
Qed.

(** A program run alone is the program run to its first [await], the call
    answered at once, and the rest run alone. *)
Lemma alone_advance {A} fault (p : Prog A) : ∀ w,
  alone fault p w =
    match advance p w with
    | (Returned a, w') => (Normal a, w')
    | (Escaped e, w') => (Threw e, w')
    | (Suspended c k, w') =>
        alone fault (k (answer_of fault)) (store_answers c fault w')
    end.
Proof. induction p; intros w; simpl; auto. Qed.

(** *** The listeners up to their [await] *)

Lemma advance_driver_active_rejected t socket data w :
  has_driverId data = false →
  advance (on_driver_active t socket data) w
  = (Returned tt, log ErrDriverIdMissing w).
Proof.
  intros Hbad. unfold on_driver_active, js_or, prop. simpl.
  destruct (truthy data) eqn:Hdata; simpl; [|done].
  unfold has_driverId in Hbad.
  destruct (get_prop data "driverId") as [d|] eqn:Hget; simpl.
  - by rewrite Hbad.
  - by destruct data.
Qed.

Lemma advance_driver_active_throws t socket data D w :
  get_prop data "driverId" = Some D → truthy D = true →
  has_string_conversion D = false →
  advance (on_driver_active t socket data) w
  = (Escaped TypeError, set_socket_driverId socket D w).
Proof.
  intros Hget HD Hstr. pose proof (get_prop_truthy _ _ _ Hget HD) as Hdata.
  unfold on_driver_active, js_or, prop, console_log_template. simpl.
  rewrite Hdata, Hget; simpl. rewrite HD; simpl. by rewrite Hstr.
Qed.

Lemma advance_driver_active_awaits t socket data D w :
  get_prop data "driverId" = Some D → truthy D = true →
  has_string_conversion D = true →
  advance (on_driver_active t socket data) w
  = (Suspended (mkCall D (set_online t) true) (after_online_write D),
     issue (mkCall D (set_online t) true)
       (log (LogDriverOnline D) (set_socket_driverId socket D w))).
Proof.
  intros Hget HD Hstr. pose proof (get_prop_truthy _ _ _ Hget HD) as Hdata.
  unfold on_driver_active, js_or, prop, console_log_template. simpl.
  rewrite Hdata, Hget; simpl. rewrite HD; simpl. by rewrite Hstr.
Qed.

Lemma advance_update_location_falsy t socket data d w :
  get_prop data "driverId" = Some d → truthy d = false →
  advance (on_update_location t socket data) w = (Returned tt, w).
Proof.
  intros Hget Hd. unfold on_update_location, prop. simpl.
  rewrite Hget; simpl. by rewrite Hd.
Qed.

Lemma advance_update_location_nullish t socket data w :
  get_prop data "driverId" = None →
  advance (on_update_location t socket data) w = (Escaped TypeError, w).
Proof.
  intros Hget. unfold on_update_location, prop. simpl. by rewrite Hget.
Qed.

Lemma advance_update_location_awaits t socket data D w :
  get_prop data "driverId" = Some D → truthy D = true →
  ∃ c, get_prop data "coordinates" = Some c ∧
  advance (on_update_location t socket data) w
  = (Suspended (saveLocation t D c) (after_saveLocation socket data),
     issue (saveLocation t D c) w).
Proof.
  intros Hget HD.
  assert (∃ c, get_prop data "coordinates" = Some c) as [c Hc].
  { destruct data; simpl in *; try discriminate; eauto. }
  exists c. split; [done|].
  unfold on_update_location, prop. simpl.
  rewrite Hget; simpl. rewrite HD; simpl. by rewrite Hc.
Qed.

Lemma advance_disconnect_unbound t socket w :
  truthy (binding socket w) = false →
  advance (on_disconnect t socket) w
  = (Returned tt, log (LogUserDisconnected socket) w).
Proof. intros Hb. unfold on_disconnect. simpl. by rewrite Hb. Qed.

Lemma advance_disconnect_throws t socket w :
  truthy (binding socket w) = true →
  has_string_conversion (binding socket w) = false →
  advance (on_disconnect t socket) w = (Escaped TypeError, w).
Proof.
  intros Hb Hstr. unfold on_disconnect, console_log_template. simpl.
  rewrite Hb. simpl. by rewrite Hstr.
Qed.

Lemma advance_disconnect_awaits t socket w :
  truthy (binding socket w) = true →
  has_string_conversion (binding socket w) = true →
  advance (on_disconnect t socket) w
  = (Suspended (mkCall (binding socket w) (set_offline t) false)
       (after_offline_write socket),
     issue (mkCall (binding socket w) (set_offline t) false)
       (log (LogDriverOffline (binding socket w)) w)).
Proof.
  intros Hb Hstr. unfold on_disconnect, console_log_template. simpl.
  rewrite Hb. simpl. by rewrite Hstr.
Qed.

(** *** The listeners from their [await] on *)

Lemma advance_after_online_write D a w :
  advance (after_online_write D a) w =
    (Returned tt,
     match a with
     | Fulfilled =>
         emit_to (nsp_sockets w) "status-update" (status_update D "online") w
     | Rejected msg => log (ErrSettingOnline (StoreError msg)) w
     end).
Proof. by destruct a. Qed.

Lemma advance_after_saveLocation socket data a w :
  advance (after_saveLocation socket data a) w =
    (Returned tt,
     match a with
     | Fulfilled =>
         emit_to (nsp_sockets w ∖ {[socket]}) "location-received" data w
     | Rejected msg => log (ErrSavingLocation (StoreError msg)) w
     end).
Proof. by destruct a. Qed.

Lemma advance_after_offline_write socket a w :
  advance (after_offline_write socket a) w =
    (Returned tt,
     log (LogUserDisconnected socket)
       match a with
       | Fulfilled =>
           emit_to (nsp_sockets w) "status-update"
             (status_update (binding socket w) "offline") w
       | Rejected msg => log (ErrSettingOffline (StoreError msg)) w
       end).
Proof. by destruct a. Qed.

(** ** One event, its listener run alone: an equation per path *)

Lemma dispatch_advance env ev w :
  dispatch env ev w =
    match advance (transport (now env) ev w).2 (transport (now env) ev w).1
    with
    | (Returned a, w') => (Normal a, w')
    | (Escaped e, w') => (Threw e, w')
    | (Suspended c k, w') =>
        alone (store_fault env) (k (answer_of (store_fault env)))
          (store_answers c (store_fault env) w')
    end.
Proof. unfold dispatch. apply alone_advance. Qed.

Lemma transport_connection t id w :
  id ∉ nsp_sockets w → id ∉ closed_ids w →
  transport t (Connection id) w = (nsp_add id w, on_connection id).
Proof.
  intros H1 H2. unfold transport.
  rewrite bool_decide_eq_false_2; [done|].
  intros [?|?]%elem_of_union; done.
Qed.

Lemma transport_driver_active t id data w :
  id ∈ nsp_sockets w →
  transport t (Incoming id "driver-active" data) w
  = (w, on_driver_active t id data).
Proof. intros Hin. unfold transport. by rewrite bool_decide_eq_true_2. Qed.

Lemma transport_update_location t id data w :
  id ∈ nsp_sockets w →
  transport t (Incoming id "update-location" data) w
  = (w, on_update_location t id data).
Proof. intros Hin. unfold transport. by rewrite bool_decide_eq_true_2. Qed.

Lemma transport_disconnect t id w :
  id ∈ nsp_sockets w →
  transport t (Disconnect id) w = (nsp_remove id w, on_disconnect t id).
Proof. intros Hin. unfold transport. by rewrite bool_decide_eq_true_2. Qed.

Lemma dispatch_connection env id w :
  id ∉ nsp_sockets w → id ∉ closed_ids w →
  dispatch env (Connection id) w
  = (Normal tt, log (LogConnectionEstablished id) (nsp_add id w)).
Proof.
  intros H1 H2. unfold dispatch. by rewrite transport_connection.
Qed.

Lemma dispatch_driver_active_rejected env socket data w :
  socket ∈ nsp_sockets w → has_driverId data = false →
  dispatch env (Incoming socket "driver-active" data) w
  = (Normal tt, log ErrDriverIdMissing w).
Proof.
  intros Hin Hbad. rewrite dispatch_advance, transport_driver_active by done.
  cbn [fst snd]. by rewrite advance_driver_active_rejected.
Qed.

Lemma dispatch_driver_active_throws env socket data D w :
  socket ∈ nsp_sockets w →
  get_prop data "driverId" = Some D → truthy D = true →
  has_string_conversion D = false →
  dispatch env (Incoming socket "driver-active" data) w
  = (Threw TypeError, set_socket_driverId socket D w).
Proof.
  intros Hin Hget HD Hstr.
  rewrite dispatch_advance, transport_driver_active by done. cbn [fst snd].
  by rewrite (advance_driver_active_throws _ _ _ D).
Qed.

Lemma dispatch_driver_active_awaits env socket data D w :
  socket ∈ nsp_sockets w →
  get_prop data "driverId" = Some D → truthy D = true →
  has_string_conversion D = true →
  dispatch env (Incoming socket "driver-active" data) w =
    (Normal tt,
     match store_fault env with
     | None =>
         emit_to (nsp_sockets w) "status-update" (status_update D "online")
           (store_applies (mkCall D (set_online (now env)) true)
              (issue (mkCall D (set_online (now env)) true)
                 (log (LogDriverOnline D) (set_socket_driverId socket D w))))
     | Some msg =>
         log (ErrSettingOnline (StoreError msg))
           (issue (mkCall D (set_online (now env)) true)
              (log (LogDriverOnline D) (set_socket_driverId socket D w)))
     end).
Proof.
  intros Hin Hget HD Hstr.
  rewrite dispatch_advance, transport_driver_active by done. cbn [fst snd].
  rewrite (advance_driver_active_awaits _ _ _ D) by done.
  rewrite alone_advance, advance_after_online_write.
  by destruct (store_fault env).
Qed.

Lemma dispatch_update_location_falsy env socket data d w :
  socket ∈ nsp_sockets w →
  get_prop data "driverId" = Some d → truthy d = false →
  dispatch env (Incoming socket "update-location" data) w = (Normal tt, w).
Proof.
  intros Hin Hget Hd.
  rewrite dispatch_advance, transport_update_location by done. cbn [fst snd].
  by rewrite (advance_update_location_falsy _ _ _ d).
Qed.

Lemma dispatch_update_location_nullish env socket data w :
  socket ∈ nsp_sockets w → get_prop data "driverId" = None →
  dispatch env (Incoming socket "update-location" data) w
  = (Threw TypeError, w).
Proof.
  intros Hin Hget.
  rewrite dispatch_advance, transport_update_location by done. cbn [fst snd].
  by rewrite advance_update_location_nullish.
Qed.

Lemma dispatch_update_location_awaits env socket data D w :
  socket ∈ nsp_sockets w →
  get_prop data "driverId" = Some D → truthy D = true →
  ∃ c, get_prop data "coordinates" = Some c ∧
  dispatch env (Incoming socket "update-location" data) w =
    (Normal tt,
     match store_fault env with
     | None =>
         emit_to (nsp_sockets w ∖ {[socket]}) "location-received" data
           (store_applies (saveLocation (now env) D c)
              (issue (saveLocation (now env) D c) w))
     | Some msg =>
         log (ErrSavingLocation (StoreError msg))
           (issue (saveLocation (now env) D c) w)
     end).
Proof.
  intros Hin Hget HD.
  destruct (advance_update_location_awaits (now env) socket data D w Hget HD)
    as (c & Hc & Hadv).
  exists c. split; [done|].
  rewrite dispatch_advance, transport_update_location by done. cbn [fst snd].
  rewrite Hadv, alone_advance, advance_after_saveLocation.
  by destruct (store_fault env).
Qed.

Lemma dispatch_disconnect_unbound env socket w :
  socket ∈ nsp_sockets w → truthy (binding socket w) = false →
  dispatch env (Disconnect socket) w
  = (Normal tt, log (LogUserDisconnected socket) (nsp_remove socket w)).
Proof.
  intros Hin Hb. rewrite dispatch_advance, transport_disconnect by done.
  cbn [fst snd]. by rewrite advance_disconnect_unbound.
Qed.

Lemma dispatch_disconnect_throws env socket w :
  socket ∈ nsp_sockets w → truthy (binding socket w) = true →
  has_string_conversion (binding socket w) = false →
  dispatch env (Disconnect socket) w
  = (Threw TypeError, nsp_remove socket w).
Proof.
  intros Hin Hb Hstr. rewrite dispatch_advance, transport_disconnect by done.
  cbn [fst snd]. by rewrite advance_disconnect_throws.
Qed.

Lemma dispatch_disconnect_awaits env socket w :
  socket ∈ nsp_sockets w → truthy (binding socket w) = true →
  has_string_conversion (binding socket w) = true →
  dispatch env (Disconnect socket) w =
    (Normal tt,
     log (LogUserDisconnected socket)
       match store_fault env with
       | None =>
           emit_to (nsp_sockets w ∖ {[socket]}) "status-update"
             (status_update (binding socket w) "offline")
             (store_applies
                (mkCall (binding socket w) (set_offline (now env)) false)
                (issue
                   (mkCall (binding socket w) (set_offline (now env)) false)
                   (log (LogDriverOffline (binding socket w))
                      (nsp_remove socket w))))
       | Some msg =>
           log (ErrSettingOffline (StoreError msg))
             (issue (mkCall (binding socket w) (set_offline (now env)) false)
                (log (LogDriverOffline (binding socket w))
                   (nsp_remove socket w)))
       end).
Proof.
  intros Hin Hb Hstr. rewrite dispatch_advance, transport_disconnect by done.
  cbn [fst snd]. rewrite advance_disconnect_awaits by done.
  rewrite alone_advance, advance_after_offline_write.
  by destruct (store_fault env).
Qed.

(** Every path through [dispatch]. *)
Lemma dispatch_cases env ev w :
  (dispatch env ev w = (Normal tt, w)
   ∧ ∀ socket, socket ∈ nsp_sockets w → checkin_of socket ev = None)
  ∨ (∃ id, ev = Connection id ∧ (id ∉ nsp_sockets w) ∧ (id ∉ closed_ids w))
  ∨ (∃ id data, ev = Incoming id "driver-active" data
       ∧ id ∈ nsp_sockets w ∧ has_driverId data = false)
  ∨ (∃ id data D, ev = Incoming id "driver-active" data
       ∧ id ∈ nsp_sockets w
       ∧ get_prop data "driverId" = Some D ∧ truthy D = true)
  ∨ (∃ id data D, ev = Incoming id "update-location" data
       ∧ id ∈ nsp_sockets w
       ∧ get_prop data "driverId" = Some D ∧ truthy D = true)
  ∨ (∃ id data, ev = Incoming id "update-location" data
       ∧ id ∈ nsp_sockets w ∧ get_prop data "driverId" = None)
  ∨ (∃ id, ev = Disconnect id ∧ id ∈ nsp_sockets w).
Proof.
  destruct ev as [id|id name data|id].
  - destruct (decide (id ∈ nsp_sockets w ∪ closed_ids w)) as [Hid|Hid].
    + left. split; [|done].
      unfold dispatch, transport. by rewrite bool_decide_eq_true_2.
    + right; left. exists id. split; [done|].
      split; intros ?; apply Hid, elem_of_union; auto.
  - destruct (decide (id ∈ nsp_sockets w)) as [Hid|Hid].
    2:{ left. split.
        - unfold dispatch, transport. by rewrite bool_decide_eq_false_2.
        - intros socket Hs. simpl.
          destruct (String.eqb_spec id socket) as [->|]; done. }
    destruct (String.eqb_spec name "driver-active") as [->|Hn1].
    { destruct (has_driverId data) eqn:Hhas.
      - do 3 right; left. apply has_driverId_true in Hhas as (D & ? & ?).
        by exists id, data, D.
      - do 2 right; left. by exists id, data. }
    apply String.eqb_neq in Hn1.
    assert (∀ socket, checkin_of socket (Incoming id name data) = None)
      as Hnone.
    { intros socket. simpl. by rewrite Hn1, andb_false_r. }
    destruct (String.eqb_spec name "update-location") as [->|Hn2].
    { destruct (get_prop data "driverId") as [D|] eqn:Hget.
      - destruct (truthy D) eqn:HD.
        + do 4 right; left. by exists id, data, D.
        + left. split; [|done].
          by apply (dispatch_update_location_falsy _ _ _ D).
      - do 5 right; left. by exists id, data. }
    left. split; [|done]. unfold dispatch, transport.
    rewrite bool_decide_eq_true_2 by done. simpl.
    apply String.eqb_neq in Hn2. by rewrite Hn1, Hn2.
  - destruct (decide (id ∈ nsp_sockets w)) as [Hid|Hid].
    + do 6 right. eauto.
    + left. split; [|done]. unfold dispatch, transport.
      by rewrite bool_decide_eq_false_2.
Qed.

(** Splits a goal about [dispatch env ev w] into one goal per path, each
    with the world the path ends in. *)
Ltac dispatch_paths env ev w :=
  let id := fresh "id" in
  let data := fresh "data" in
  let D := fresh "D" in
  let Hid := fresh "Hid" in
  let Hnew := fresh "Hnew" in
  let Hget := fresh "Hget" in
  let HD := fresh "HD" in
  let Hstr := fresh "Hstr" in
  let Hbad := fresh "Hbad" in
  let Hb := fresh "Hb" in
  let Hc := fresh "Hc" in
  let c := fresh "c" in
  let Hsame := fresh "Hsame" in
  let Hnone := fresh "Hnone" in
  destruct (dispatch_cases env ev w)
    as [[Hsame Hnone]
       |[(id & -> & Hid & Hnew)
        |[(id & data & -> & Hid & Hbad)
         |[(id & data & D & -> & Hid & Hget & HD)
          |[(id & data & D & -> & Hid & Hget & HD)
           |[(id & data & -> & Hid & Hget)
            |(id & -> & Hid)]]]]]];
  [ rewrite ?Hsame
  | rewrite ?(dispatch_connection env id w Hid Hnew)
  | rewrite ?(dispatch_driver_active_rejected env id data w Hid Hbad)
  | destruct (has_string_conversion D) eqn:Hstr;
    [ rewrite ?(dispatch_driver_active_awaits env id data D w Hid Hget HD Hstr);
      destruct (store_fault env) eqn:?
    | rewrite ?(dispatch_driver_active_throws env id data D w Hid Hget HD Hstr)
    ]
  | destruct (dispatch_update_location_awaits env id data D w Hid Hget HD)
      as (c & Hc & Hsame);
    rewrite ?Hsame; destruct (store_fault env) eqn:?
  | rewrite ?(dispatch_update_location_nullish env id data w Hid Hget)
  | destruct (truthy (binding id w)) eqn:Hb;
    [ destruct (has_string_conversion (binding id w)) eqn:Hstr;
      [ rewrite ?(dispatch_disconnect_awaits env id w Hid Hb Hstr);
        destruct (store_fault env) eqn:?
      | rewrite ?(dispatch_disconnect_throws env id w Hid Hb Hstr) ]
    | rewrite ?(dispatch_disconnect_unbound env id w Hid Hb) ] ].

(** *** The store write of a listener *)

Lemma answer_of_Fulfilled fault : answer_of fault = Fulfilled → fault = None.
Proof. by destruct fault. Qed.

Lemma answer_of_Rejected fault msg :
  answer_of fault = Rejected msg → fault = Some msg.
Proof. destruct fault; simpl; [by intros [= ->]|done]. Qed.

Lemma store_write_driver_active env socket data D w a :
  socket ∈ nsp_sockets w →
  get_prop data "driverId" = Some D → truthy D = true →
  store_write_of env (Incoming socket "driver-active" data) w = Some a →
  has_string_conversion D = true ∧ answer_of (store_fault env) = a.
Proof.
  intros Hin Hget HD. unfold store_write_of.
  rewrite transport_driver_active by done. cbn [fst snd].
  destruct (has_string_conversion D) eqn:Hstr.
  - rewrite (advance_driver_active_awaits _ _ _ D) by done. simpl.
    by intros [= <-].
  - by rewrite (advance_driver_active_throws _ _ _ D).
Qed.

Lemma store_write_update_location env socket data D w :
  socket ∈ nsp_sockets w →
  get_prop data "driverId" = Some D → truthy D = true →
  store_write_of env (Incoming socket "update-location" data) w
  = Some (answer_of (store_fault env)).
Proof.
  intros Hin Hget HD. unfold store_write_of.
  rewrite transport_update_location by done. cbn [fst snd].
  destruct (advance_update_location_awaits (now env) socket data D w Hget HD)
    as (c & _ & ->). done.
Qed.

Lemma store_write_disconnect env socket w a :
  socket ∈ nsp_sockets w →
  store_write_of env (Disconnect socket) w = Some a →
  truthy (binding socket w) = true
  ∧ has_string_conversion (binding socket w) = true
  ∧ answer_of (store_fault env) = a.
Proof.
  intros Hin. unfold store_write_of.
  rewrite transport_disconnect by done. cbn [fst snd].
  destruct (truthy (binding socket w)) eqn:Hb.
  - destruct (has_string_conversion (binding socket w)) eqn:Hstr.
    + rewrite advance_disconnect_awaits by done. simpl. by intros [= <-].
    + by rewrite advance_disconnect_throws.
  - by rewrite advance_disconnect_unbound.
Qed.

Lemma length_update_only d u coll :
  length (findOneAndUpdate d u false coll) = length coll.
Proof.
  induction coll as [|r rest IH]; simpl; [done|].
  destruct (js_eqb (driverId r) d); simpl; [done|]. by rewrite IH.
Qed.

Lemma findOne_key d coll r : findOne d coll = Some r → driverId r = d.
Proof.
  induction coll as [|x rest IH]; [done|]. simpl.
  destruct (js_eqb_spec (driverId x) d) as [E|E]; [by intros [= <-]|done].
Qed.

(** * The claims *)

Ltac in_sample_nsp :=
  unfold Sample.two_sockets, Sample.d1_online, Sample.d1_twice; simpl;
  set_solver.

(** C1. A [driver-active] check-in of a connected socket that carries a
    non-empty driverId [D], when its store write succeeds: the collection
    holds a record of [D] with status online and [lastSeen] the time of the
    check-in, appended by the upsert when [D] had none and updated in place
    otherwise; exactly one event is emitted, [status-update] with payload
    [{driverId: D, status: "online"}], and its recipients are all connected
    sockets, the reporting one among them. *)
Theorem driver_active_marks_online env socket data D w :
  socket ∈ nsp_sockets w →
  get_prop data "driverId" = Some D → truthy D = true →
  store_write_of env (Incoming socket "driver-active" data) w
  = Some Fulfilled →
  let w' := exec (dispatch env (Incoming socket "driver-active" data)) w in
  outcome (dispatch env (Incoming socket "driver-active" data)) w = Normal tt
  ∧ (∃ r, findOne D (collection w') = Some r
          ∧ status r = Some online ∧ lastSeen r = Some (now env))
  ∧ (findOne D (collection w) = None →
     collection w' =
       collection w ++ [mkDoc D (Some online) (Some (now env)) None])
  ∧ (is_Some (findOne D (collection w)) →
     length (collection w') = length (collection w))
  ∧ nsp_sockets w' = nsp_sockets w
  ∧ ∃ e, outbox w' = outbox w ++ [e]
         ∧ event e = "status-update"
         ∧ payload e = JObj [("driverId", D); ("status", JStr "online")]
         ∧ recipients e = nsp_sockets w
         ∧ socket ∈ recipients e.
Proof.
  intros Hin Hget HD Hwrite.
  destruct (store_write_driver_active _ _ _ _ _ _ Hin Hget HD Hwrite)
    as [Hstr Hok%answer_of_Fulfilled].
  unfold exec, outcome.
  rewrite (dispatch_driver_active_awaits _ _ _ D) by done. rewrite Hok.
  simpl. split; [done|]. split.
  { rewrite findOne_upsert. eexists. split; [done|]. by simpl. }
  split; [by apply upsert_absent|].
  split; [by apply length_present|].
  split; [done|].
  eexists. split; [done|]. by simpl.
Qed.

Lemma driver_active_marks_online_witness :
  let w := Sample.two_sockets in
  let w' := exec (dispatch (Sample.works 7)
                    (Incoming "A" "driver-active" (Sample.checkin "d1"))) w in
  collection w' = [mkDoc (JStr "d1") (Some online) (Some 7) None]
  ∧ ∃ e, outbox w' = outbox w ++ [e] ∧ "A" ∈ recipients e.
Proof.
  intros w w'.
  destruct (driver_active_marks_online (Sample.works 7) "A"
              (Sample.checkin "d1") (JStr "d1") Sample.two_sockets)
    as (_ & _ & Hnew & _ & _ & e & He & _ & _ & _ & HA);
    [in_sample_nsp | reflexivity | reflexivity | reflexivity |].
  split; [apply Hnew; reflexivity | exists e; split; assumption].
Defined.

(** C2, as the code has it.  The close of a connected socket.  When the
    socket is bound to [D] and the store write succeeds: the write is
    update-only (no upsert), a record of [D] gets status offline and
    [lastSeen] the time of the close, no record is created for an unknown
    [D], and [status-update] with payload [{driverId: D, status: "offline"}]
    is emitted to all sockets that are connected then.  When the socket was
    never bound: no store call and no emission. *)
Theorem disconnect_marks_offline env socket w :
  socket ∈ nsp_sockets w →
  let D := binding socket w in
  let w' := exec (dispatch env (Disconnect socket)) w in
  (truthy D = true →
   store_write_of env (Disconnect socket) w = Some Fulfilled →
     db_calls w' = db_calls w ++ [mkCall D (set_offline (now env)) false]
     ∧ (∀ r, findOne D (collection w) = Some r →
          findOne D (collection w') =
            Some (mkDoc (driverId r) (Some offline) (Some (now env))
                    (coordinates r)))
     ∧ (findOne D (collection w) = None → collection w' = collection w)
     ∧ length (collection w') = length (collection w)
     ∧ nsp_sockets w' = nsp_sockets w ∖ {[socket]}
     ∧ outbox w' = outbox w ++
         [mkEmission (nsp_sockets w') "status-update"
            (JObj [("driverId", D); ("status", JStr "offline")])])
  ∧ (truthy D = false →
     collection w' = collection w ∧ db_calls w' = db_calls w
     ∧ outbox w' = outbox w).
Proof.
  intros Hin D w'. subst D w'. unfold exec. split.
  - intros Hb Hwrite.
    destruct (store_write_disconnect _ _ _ _ Hin Hwrite)
      as (_ & Hstr & Hok%answer_of_Fulfilled).
    rewrite dispatch_disconnect_awaits by done. rewrite Hok. simpl.
    split; [done|]. split.
    { intros r Hr. rewrite findOne_update_only. by rewrite Hr. }
    split; [apply update_only_absent|].
    split; [apply length_update_only|]. done.
  - intros Hb. by rewrite dispatch_disconnect_unbound.
Qed.

Lemma disconnect_marks_offline_witness :
  let w' := exec (dispatch (Sample.works 20) (Disconnect "A"))
              Sample.d1_online in
  findOne (JStr "d1") (collection w')
  = Some (mkDoc (JStr "d1") (Some offline) (Some 20) None)
  ∧ length (collection w') = 1%nat.
Proof.
  intros w'.
  destruct (disconnect_marks_offline (Sample.works 20) "A" Sample.d1_online)
    as [Hbound _]; [in_sample_nsp|].
  destruct Hbound as (_ & Hr & _ & Hlen & _); [reflexivity | reflexivity |].
  split; [apply (Hr _ eq_refl) | apply Hlen].
Defined.

(** C2, as the spec states it, fails: socket A, bound to d1, closes while
    the store rejects the write; the record of d1 keeps status online and
    no [status-update] is emitted. *)
Lemma disconnect_rejected_write_counterexample :
  let m := dispatch (Sample.fails 20) (Disconnect "A") in
  binding "A" Sample.d1_online = JStr "d1"
  ∧ status_of (JStr "d1") (collection (exec m Sample.d1_online))
    = Some online
  ∧ outbox (exec m Sample.d1_online) = [].
Proof. vm_compute. done. Qed.

Lemma binding_set_same socket D w :
  binding socket (set_socket_driverId socket D w) = D.
Proof. unfold binding; simpl. by rewrite lookup_insert_eq. Qed.

Lemma binding_set_other socket id D w :
  id ≠ socket →
  binding socket (set_socket_driverId id D w) = binding socket w.
Proof. intros Hne. unfold binding; simpl. by rewrite lookup_insert_ne. Qed.

Lemma checkin_of_accepted socket id data D :
  get_prop data "driverId" = Some D → truthy D = true →
  checkin_of socket (Incoming id "driver-active" data)
  = if String.eqb id socket then Some D else None.
Proof.
  intros Hget HD. simpl. unfold has_driverId. rewrite Hget, HD.
  by destruct (String.eqb id socket).
Qed.

(** C3, as the code has it.  The binding of a connected socket after any
    event is the driverId of that event when the event is a [driver-active]
    message of this socket that passes the guard, and is what it was before
    otherwise: every accepted check-in rebinds the session, to a different
    driverId too, and nothing else changes the binding; in particular a
    binding that is set is never unset. *)
Theorem binding_follows_latest_checkin env ev socket w :
  socket ∈ nsp_sockets w →
  let w' := exec (dispatch env ev) w in
  binding socket w' = default (binding socket w) (checkin_of socket ev)
  ∧ (truthy (binding socket w) = true → truthy (binding socket w') = true).
Proof.
  intros Hin w'.
  assert (binding socket w'
          = default (binding socket w) (checkin_of socket ev)) as Heq.
  { subst w'. unfold exec.
    assert (∀ id data D,
              get_prop data "driverId" = Some D → truthy D = true →
              binding socket (set_socket_driverId id D w)
              = default (binding socket w)
                  (checkin_of socket (Incoming id "driver-active" data)))
      as Hset.
    { intros id data D Hget HD. rewrite (checkin_of_accepted _ _ _ D) by done.
      destruct (String.eqb_spec id socket) as [->|Hne]; simpl.
      - apply binding_set_same.
      - by apply binding_set_other. }
    dispatch_paths env ev w; cbn [snd].
    all: try (by rewrite Hnone).
    all: try (by apply (Hset id data D)).
    all: try reflexivity.
    - unfold binding; simpl. rewrite lookup_delete_ne; [done|].
      by intros ->.
    - simpl. by rewrite Hbad, andb_false_r.
    - simpl. by rewrite andb_false_r.
    - simpl. by rewrite andb_false_r.
    - simpl. by rewrite andb_false_r. }
  split; [done|]. rewrite Heq. intros Hb.
  destruct ev as [id|id name data|id]; simpl; try done.
  destruct (String.eqb id socket && String.eqb name "driver-active"
            && has_driverId data) eqn:Hc; [|done].
  apply andb_true_iff in Hc as [_ Hc]. unfold has_driverId in Hc.
  by destruct (get_prop data "driverId").
Qed.

Lemma binding_follows_latest_checkin_witness :
  binding "A"
    (exec (dispatch (Sample.works 30)
             (Incoming "A" "driver-active" (Sample.checkin "d2")))
       Sample.d1_online)
  = JStr "d2".
Proof.
  apply (binding_follows_latest_checkin (Sample.works 30)
           (Incoming "A" "driver-active" (Sample.checkin "d2")) "A"
           Sample.d1_online).
  in_sample_nsp.
Defined.

(** C3, as the spec states it, fails: socket A checks in as d1 and is bound
    to d1; its next check-in, as d2, changes the binding to d2. *)
Lemma binding_rebound_counterexample :
  let w1 := exec (dispatch (Sample.works 1)
                    (Incoming "A" "driver-active" (Sample.checkin "d1")))
              Sample.two_sockets in
  let w2 := exec (dispatch (Sample.works 2)
                    (Incoming "A" "driver-active" (Sample.checkin "d2")))
              w1 in
  binding "A" w1 = JStr "d1" ∧ binding "A" w2 = JStr "d2"
  ∧ binding "A" w2 ≠ binding "A" w1.
Proof. vm_compute. repeat split; discriminate. Qed.

(** C4, as the code has it.  An [update-location] message of a connected
    socket with a non-empty driverId, when the store write succeeds: exactly
    one event is emitted, [location-received], whose payload is the message's
    own payload, forwarded as received (so it is [{driverId, coordinates}]
    when the message is just that); it goes to every connected socket except
    the originating one, and not to the originating one. *)
Theorem update_location_relays_payload env socket data D w :
  socket ∈ nsp_sockets w →
  get_prop data "driverId" = Some D → truthy D = true →
  store_fault env = None →
  let w' := exec (dispatch env (Incoming socket "update-location" data)) w in
  ∃ e, outbox w' = outbox w ++ [e]
       ∧ event e = "location-received"
       ∧ payload e = data
       ∧ (∀ c, data = JObj [("driverId", D); ("coordinates", c)] →
          payload e = JObj [("driverId", D); ("coordinates", c)])
       ∧ recipients e = nsp_sockets w ∖ {[socket]}
       ∧ (socket ∉ recipients e)
       ∧ (∀ s, s ∈ nsp_sockets w → s ≠ socket → s ∈ recipients e).
Proof.
  intros Hin Hget HD Hok w'. subst w'. unfold exec.
  destruct (dispatch_update_location_awaits env socket data D w Hin Hget HD)
    as (c & _ & ->).
  rewrite Hok. simpl. eexists. split; [done|]. simpl.
  do 4 (split; [done|]). split.
  - intros [_ Hs]%elem_of_difference. apply Hs. by apply elem_of_singleton.
  - intros s Hs Hne. apply elem_of_difference. split; [done|].
    by rewrite elem_of_singleton.
Qed.

Lemma update_location_relays_payload_witness :
  let w' := exec (dispatch (Sample.works 5)
                    (Incoming "A" "update-location" Sample.location))
              Sample.two_sockets in
  ∃ e, outbox w' = [e] ∧ payload e = Sample.location ∧ "A" ∉ recipients e.
Proof.
  intros w'.
  destruct (update_location_relays_payload (Sample.works 5) "A"
              Sample.location (JStr "d1") Sample.two_sockets)
    as (e & He & _ & Hp & _ & _ & HA & _);
    [in_sample_nsp | reflexivity | reflexivity | reflexivity |].
  exists e. split; [exact He | split; [exact Hp | exact HA]].
Defined.

(** C4, as the spec states it, fails: a message
    [{driverId: "d1", coordinates, speed: 40}] is relayed with its [speed]
    field, so the payload is not exactly [{driverId, coordinates}]. *)
Lemma location_received_payload_counterexample :
  let data := Sample.location_with_speed in
  let w' := exec (dispatch (Sample.works 5)
                    (Incoming "A" "update-location" data))
              Sample.two_sockets in
  get_prop data "driverId" = Some (JStr "d1")
  ∧ get_prop data "coordinates" = Some Sample.position
  ∧ (payload <$> outbox w') = [data]
  ∧ data ≠ JObj [("driverId", JStr "d1"); ("coordinates", Sample.position)].
Proof. vm_compute. repeat split; discriminate. Qed.

(** C5, as the code has it.  When the store write of a listener is rejected
    the listener returns normally, the error is written to the console and
    nothing is emitted, to the client or to anyone; after a [driver-active]
    or [update-location] message the same sockets are connected as before,
    the sender among them; after a close the socket is gone from the
    namespace, as after a close whose write succeeds. *)
Theorem store_failure_is_contained env msg socket w :
  socket ∈ nsp_sockets w →
  (∀ data D, get_prop data "driverId" = Some D → truthy D = true →
     store_write_of env (Incoming socket "driver-active" data) w
     = Some (Rejected msg) →
     let m := dispatch env (Incoming socket "driver-active" data) in
     outcome m w = Normal tt
     ∧ console (exec m w) =
         console w ++ [LogDriverOnline D; ErrSettingOnline (StoreError msg)]
     ∧ outbox (exec m w) = outbox w
     ∧ nsp_sockets (exec m w) = nsp_sockets w
     ∧ socket ∈ nsp_sockets (exec m w))
  ∧ (∀ data D, get_prop data "driverId" = Some D → truthy D = true →
     store_write_of env (Incoming socket "update-location" data) w
     = Some (Rejected msg) →
     let m := dispatch env (Incoming socket "update-location" data) in
     outcome m w = Normal tt
     ∧ console (exec m w) =
         console w ++ [ErrSavingLocation (StoreError msg)]
     ∧ outbox (exec m w) = outbox w
     ∧ nsp_sockets (exec m w) = nsp_sockets w
     ∧ socket ∈ nsp_sockets (exec m w))
  ∧ (truthy (binding socket w) = true →
     store_write_of env (Disconnect socket) w = Some (Rejected msg) →
     let m := dispatch env (Disconnect socket) in
     outcome m w = Normal tt
     ∧ console (exec m w) =
         console w ++ [LogDriverOffline (binding socket w);
                       ErrSettingOffline (StoreError msg);
                       LogUserDisconnected socket]
     ∧ outbox (exec m w) = outbox w
     ∧ nsp_sockets (exec m w) = nsp_sockets w ∖ {[socket]}).
Proof.
  intros Hin. unfold exec, outcome. split; [|split].
  - intros data D Hget HD Hwrite. cbv zeta.
    destruct (store_write_driver_active _ _ _ _ _ _ Hin Hget HD Hwrite)
      as [Hstr Hko%answer_of_Rejected].
    rewrite (dispatch_driver_active_awaits _ _ _ D) by done. rewrite Hko.
    simpl. by rewrite <- app_assoc.
  - intros data D Hget HD Hwrite. cbv zeta.
    rewrite (store_write_update_location _ _ _ D) in Hwrite by done.
    injection Hwrite as Hko%answer_of_Rejected.
    destruct (dispatch_update_location_awaits env socket data D w Hin Hget HD)
      as (c & _ & ->).
    by rewrite Hko.
  - intros Hb Hwrite. cbv zeta.
    destruct (store_write_disconnect _ _ _ _ Hin Hwrite)
      as (_ & Hstr & Hko%answer_of_Rejected).
    rewrite dispatch_disconnect_awaits by done. rewrite Hko. simpl.
    by rewrite <- !app_assoc.
Qed.

Lemma store_failure_is_contained_witness :
  let m := dispatch (Sample.fails 8)
             (Incoming "A" "driver-active" (Sample.checkin "d1")) in
  outcome m Sample.two_sockets = Normal tt
  ∧ console (exec m Sample.two_sockets) =
      [LogDriverOnline (JStr "d1");
       ErrSettingOnline (StoreError "ECONNREFUSED")].
Proof.
  intros m.
  destruct (store_failure_is_contained (Sample.fails 8) "ECONNREFUSED" "A"
              Sample.two_sockets) as [Hactive _]; [in_sample_nsp|].
  destruct (Hactive (Sample.checkin "d1") (JStr "d1") eq_refl eq_refl
              eq_refl) as (Hout & Hcon & _).
  split; [exact Hout | exact Hcon].
Defined.

(** C5, as the spec states it, fails for the close: socket A, bound to d1,
    closes while the store rejects the write; the error is logged and
    nothing is emitted, but the session does not remain connected. *)
Lemma disconnect_failure_counterexample :
  let m := dispatch (Sample.fails 9) (Disconnect "A") in
  binding "A" Sample.d1_online = JStr "d1"
  ∧ outcome m Sample.d1_online = Normal tt
  ∧ outbox (exec m Sample.d1_online) = []
  ∧ elements (nsp_sockets (exec m Sample.d1_online)) = ["B"]
  ∧ "A" ∉ nsp_sockets (exec m Sample.d1_online).
Proof.
  repeat split; try (vm_compute; reflexivity).
  intros HA. apply elem_of_elements in HA. revert HA.
  replace (elements _) with ["B"] by (vm_compute; reflexivity).
  intros HA. apply list_elem_of_singleton in HA. discriminate.
Qed.

(** * The event loop *)

Lemma run_cons x rest s :
  run (x :: rest) s =
    match tick x s with
    | (Normal _, s') => run rest s'
    | (Threw e, s') => (Threw e, s')
    end.
Proof. reflexivity. Qed.

Lemma run_invariant (P : Server → Prop) :
  (∀ x s, P s → P (exec (tick x) s)) →
  ∀ xs s, P s → P (exec (run xs) s).
Proof.
  intros Hstep. induction xs as [|x xs IH]; intros s Hs; [done|].
  unfold exec. rewrite run_cons.
  pose proof (Hstep x s Hs) as Hx. unfold exec in Hx.
  destruct (tick x s) as [[[]|e] s1]; simpl in *; [|done].
  by apply IH.
Qed.

(** Every way an arriving event leaves its listener: returned, thrown, or
    waiting at its [await]. *)
Lemma arrive_cases t ev w :
  let r := advance (transport t ev w).2 (transport t ev w).1 in
  (r = (Returned tt, w)
   ∧ ∀ socket, socket ∈ nsp_sockets w → checkin_of socket ev = None)
  ∨ (∃ id, ev = Connection id
       ∧ (id ∉ nsp_sockets w) ∧ (id ∉ closed_ids w)
       ∧ r = (Returned tt, log (LogConnectionEstablished id) (nsp_add id w)))
  ∨ (∃ id data, ev = Incoming id "driver-active" data
       ∧ id ∈ nsp_sockets w ∧ has_driverId data = false
       ∧ r = (Returned tt, log ErrDriverIdMissing w))
  ∨ (∃ id data D, ev = Incoming id "driver-active" data
       ∧ id ∈ nsp_sockets w
       ∧ get_prop data "driverId" = Some D ∧ truthy D = true
       ∧ has_string_conversion D = false
       ∧ r = (Escaped TypeError, set_socket_driverId id D w))
  ∨ (∃ id data D, ev = Incoming id "driver-active" data
       ∧ id ∈ nsp_sockets w
       ∧ get_prop data "driverId" = Some D ∧ truthy D = true
       ∧ has_string_conversion D = true
       ∧ r = (Suspended (mkCall D (set_online t) true) (after_online_write D),
              issue (mkCall D (set_online t) true)
                (log (LogDriverOnline D) (set_socket_driverId id D w))))
  ∨ (∃ id data D c, ev = Incoming id "update-location" data
       ∧ id ∈ nsp_sockets w
       ∧ get_prop data "driverId" = Some D ∧ truthy D = true
       ∧ r = (Suspended (saveLocation t D c) (after_saveLocation id data),
              issue (saveLocation t D c) w))
  ∨ (∃ id data, ev = Incoming id "update-location" data
       ∧ id ∈ nsp_sockets w ∧ get_prop data "driverId" = None
       ∧ r = (Escaped TypeError, w))
  ∨ (∃ id, ev = Disconnect id ∧ id ∈ nsp_sockets w
       ∧ truthy (binding id w) = false
       ∧ r = (Returned tt, log (LogUserDisconnected id) (nsp_remove id w)))
  ∨ (∃ id, ev = Disconnect id ∧ id ∈ nsp_sockets w
       ∧ truthy (binding id w) = true
       ∧ has_string_conversion (binding id w) = false
       ∧ r = (Escaped TypeError, nsp_remove id w))
  ∨ (∃ id, ev = Disconnect id ∧ id ∈ nsp_sockets w
       ∧ truthy (binding id w) = true
       ∧ has_string_conversion (binding id w) = true
       ∧ r = (Suspended (mkCall (binding id w) (set_offline t) false)
                (after_offline_write id),
              issue (mkCall (binding id w) (set_offline t) false)
                (log (LogDriverOffline (binding id w)) (nsp_remove id w)))).
Proof.
  cbv zeta. destruct ev as [id|id name data|id].
  - destruct (decide (id ∈ nsp_sockets w ∪ closed_ids w)) as [Hid|Hid].
    + left. split; [|done]. unfold transport.
      by rewrite bool_decide_eq_true_2.
    + right; left. exists id.
      assert ((id ∉ nsp_sockets w) ∧ (id ∉ closed_ids w)) as [H1 H2].
      { split; intros ?; apply Hid, elem_of_union; auto. }
      do 3 (split; [done|]). by rewrite transport_connection.
  - destruct (decide (id ∈ nsp_sockets w)) as [Hid|Hid].
    2:{ left. split.
        - unfold transport. by rewrite bool_decide_eq_false_2.
        - intros socket Hs. simpl.
          destruct (String.eqb_spec id socket) as [->|]; done. }
    destruct (String.eqb_spec name "driver-active") as [->|Hn1].
    { rewrite transport_driver_active by done. cbn [fst snd].
      destruct (has_driverId data) eqn:Hhas.
      - apply has_driverId_true in Hhas as (D & Hget & HD).
        destruct (has_string_conversion D) eqn:Hstr.
        + do 4 right; left. exists id, data, D. do 5 (split; [done|]).
          by apply advance_driver_active_awaits.
        + do 3 right; left. exists id, data, D. do 5 (split; [done|]).
          by apply advance_driver_active_throws.
      - do 2 right; left. exists id, data. do 3 (split; [done|]).
        by apply advance_driver_active_rejected. }
    apply String.eqb_neq in Hn1.
    assert (∀ socket, checkin_of socket (Incoming id name data) = None)
      as Hnone.
    { intros socket. simpl. by rewrite Hn1, andb_false_r. }
    destruct (String.eqb_spec name "update-location") as [->|Hn2].
    { rewrite transport_update_location by done. cbn [fst snd].
      destruct (get_prop data "driverId") as [D|] eqn:Hget.
      - destruct (truthy D) eqn:HD.
        + do 5 right; left.
          destruct (advance_update_location_awaits t id data D w Hget HD)
            as (c & _ & Hadv).
          exists id, data, D, c. by do 4 (split; [done|]).
        + left. split; [|done].
          by apply (advance_update_location_falsy _ _ _ D).
      - do 6 right; left. exists id, data. do 3 (split; [done|]).
        by apply advance_update_location_nullish. }
    left. split; [|done]. unfold transport.
    rewrite bool_decide_eq_true_2 by done. simpl.
    apply String.eqb_neq in Hn2. by rewrite Hn1, Hn2.
  - destruct (decide (id ∈ nsp_sockets w)) as [Hid|Hid].
    2:{ left. split; [|done]. unfold transport.
        by rewrite bool_decide_eq_false_2. }
    rewrite transport_disconnect by done. cbn [fst snd].
    destruct (truthy (binding id w)) eqn:Hb.
    + destruct (has_string_conversion (binding id w)) eqn:Hstr.
      * do 9 right. exists id. do 4 (split; [done|]).
        by apply (advance_disconnect_awaits t id (nsp_remove id w)).
      * do 8 right; left. exists id. do 4 (split; [done|]).
        by apply (advance_disconnect_throws t id (nsp_remove id w)).
    + do 7 right; left. exists id. do 3 (split; [done|]).
      by apply (advance_disconnect_unbound t id (nsp_remove id w)).
Qed.

Lemma binding_lookup id w :
  truthy (binding id w) = true →
  sock_driverId w !! id = Some (binding id w).
Proof. unfold binding. by destruct (sock_driverId w !! id). Qed.

(** A waiting listener still waits after a change of the world that leaves
    the closed sockets closed and their [driverId] property as it was. *)
Lemma waiting_frame w w' task :
  (∀ socket, socket ∉ nsp_sockets w → socket ∈ closed_ids w →
     (socket ∉ nsp_sockets w') ∧ socket ∈ closed_ids w'
     ∧ sock_driverId w' !! socket = sock_driverId w !! socket) →
  Waiting w task → Waiting w' task.
Proof.
  intros Hframe [D t a HD Hstr|socket data D c t a
                |socket D t a Hout Hclosed Hbound HD Hstr].
  - by constructor.
  - by constructor.
  - destruct (Hframe socket Hout Hclosed) as (? & ? & Heq).
    constructor; try done. by rewrite Heq.
Qed.

(** Splits a goal about [tick x s] into one goal per path; [Hw] says that
    the listeners waiting in [s] are listeners of [server.js]. *)
Ltac tick_paths x s Hw :=
  let t := fresh "t" in
  let ev := fresh "ev" in
  let n := fresh "n" in
  let fault := fresh "fault" in
  let id := fresh "id" in
  let data := fresh "data" in
  let D := fresh "D" in
  let c := fresh "c" in
  let Hid := fresh "Hid" in
  let Hnew := fresh "Hnew" in
  let Hold := fresh "Hold" in
  let Hget := fresh "Hget" in
  let HD := fresh "HD" in
  let Hstr := fresh "Hstr" in
  let Hbad := fresh "Hbad" in
  let Hb := fresh "Hb" in
  let Hr := fresh "Hr" in
  let Hnone := fresh "Hnone" in
  let Hn := fresh "Hn" in
  let Hshape := fresh "Hshape" in
  let Hout := fresh "Hout" in
  let Hclosed := fresh "Hclosed" in
  let Hbound := fresh "Hbound" in
  let task := fresh "task" in
  let a := fresh "a" in
  let msg := fresh "msg" in
  destruct x as [t ev|n fault|n];
  [ unfold tick;
    destruct (arrive_cases t ev (world s))
      as [[Hr Hnone]
         |[(id & -> & Hnew & Hold & Hr)
          |[(id & data & -> & Hid & Hbad & Hr)
           |[(id & data & D & -> & Hid & Hget & HD & Hstr & Hr)
            |[(id & data & D & -> & Hid & Hget & HD & Hstr & Hr)
             |[(id & data & D & c & -> & Hid & Hget & HD & Hr)
              |[(id & data & -> & Hid & Hget & Hr)
               |[(id & -> & Hid & Hb & Hr)
                |[(id & -> & Hid & Hb & Hstr & Hr)
                 |(id & -> & Hid & Hb & Hstr & Hr)]]]]]]]]];
    rewrite Hr; unfold park
  | unfold tick;
    destruct (tasks s !! n) as [task|] eqn:Hn;
    [ pose proof (Hw n task Hn) as Hshape;
      destruct Hshape
        as [D t a HD Hstr|id data D c t a
           |id D t a Hout Hclosed Hbound HD Hstr];
      destruct a as [a|]; [|destruct fault as [msg|]..]
    | ]
  | unfold tick;
    destruct (tasks s !! n) as [task|] eqn:Hn;
    [ pose proof (Hw n task Hn) as Hshape;
      destruct Hshape
        as [D t a HD Hstr|id data D c t a
           |id D t a Hout Hclosed Hbound HD Hstr];
      (destruct a as [a|];
       [ first [ rewrite advance_after_online_write
               | rewrite advance_after_saveLocation
               | rewrite advance_after_offline_write ];
         unfold park; destruct a as [|msg]
       | ])
    | ] ].

Lemma tick_keeps_waiting x s :
  map_Forall (λ _ task, Waiting (world s) task) (tasks s) →
  map_Forall (λ _ task, Waiting (world (exec (tick x) s)) task)
    (tasks (exec (tick x) s)).
Proof.
  intros Hw. unfold exec.
  assert (∀ w',
            (∀ socket, socket ∉ nsp_sockets (world s) →
               socket ∈ closed_ids (world s) →
               (socket ∉ nsp_sockets w') ∧ socket ∈ closed_ids w'
               ∧ sock_driverId w' !! socket
                 = sock_driverId (world s) !! socket) →
            map_Forall (λ _ task, Waiting w' task) (tasks s)) as Hkeep.
  { intros w' Hframe n task Hn. apply (waiting_frame (world s)); [done|].
    by apply (Hw n). }
  tick_paths x s Hw; cbn [fst snd world tasks].
  all: try done.
  all: try (apply map_Forall_delete).
  all: try (apply map_Forall_insert_2; [|]).
  all: try (apply Hkeep; intros socket Ho Hc; simpl; by auto).
  all: try (by constructor).
  - (* a new connection *)
    apply Hkeep. intros socket Ho Hc. simpl.
    assert (id ≠ socket) by (by intros ->).
    rewrite lookup_delete_ne by done. split; [|done].
    intros [?%elem_of_singleton|?]%elem_of_union; done.
  - apply Hkeep. intros socket Ho Hc. simpl.
    assert (id ≠ socket) by (by intros ->).
    by rewrite lookup_insert_ne.
  - apply Hkeep. intros socket Ho Hc. simpl.
    assert (id ≠ socket) by (by intros ->).
    by rewrite lookup_insert_ne.
  - apply Hkeep. intros socket Ho Hc. simpl. split; [|split; [|done]].
    + intros [? _]%elem_of_difference. done.
    + apply elem_of_union. by right.
  - apply Hkeep. intros socket Ho Hc. simpl. split; [|split; [|done]].
    + intros [? _]%elem_of_difference. done.
    + apply elem_of_union. by right.
  - constructor; simpl; try done.
    + intros [_ Hne]%elem_of_difference. apply Hne.
      by apply elem_of_singleton.
    + apply elem_of_union. left. by apply elem_of_singleton.
    + by apply binding_lookup.
  - apply Hkeep. intros socket Ho Hc. simpl. split; [|split; [|done]].
    + intros [? _]%elem_of_difference. done.
    + apply elem_of_union. by right.
Qed.

(** C6, the code at the failing input.  An [update-location] message with no
    payload, or with [null], makes the listener throw a [TypeError] when it
    reads [data.driverId], outside its [try] block: the exception escapes
    the listener (nothing is written to the store or emitted), and it ends
    the run of the server.  A payload that is not nullish and lacks a truthy
    [driverId] is the silent no-op the claim describes. *)
Theorem update_location_nullish_payload_throws env socket w :
  alone (store_fault env) (on_update_location (now env) socket JUndefined) w
  = (Threw TypeError, w)
  ∧ alone (store_fault env) (on_update_location (now env) socket JNull) w
    = (Threw TypeError, w)
  ∧ outcome (run [Arrive (now env) (Connection socket);
                  Arrive (now env)
                    (Incoming socket "update-location" JUndefined)])
      (idle initial) = Threw TypeError
  ∧ alone (store_fault env) (on_update_location (now env) socket (JObj [])) w
    = (Normal tt, w)
  ∧ alone (store_fault env)
      (on_update_location (now env) socket (JObj [("driverId", JStr "")])) w
    = (Normal tt, w).
Proof.
  split; [done|]. split; [done|]. split; [|done].
  unfold outcome. rewrite run_cons. unfold tick at 1.
  rewrite transport_connection by (simpl; apply not_elem_of_empty).
  cbn [fst snd]. simpl advance. unfold park.
  rewrite run_cons. unfold tick at 1. cbn [world].
  rewrite transport_update_location
    by (simpl; apply elem_of_union_l; by apply elem_of_singleton).
  done.
Qed.

(** C7. A [driver-active] message of a connected socket whose payload is
    missing or carries no truthy [driverId] is rejected: the listener
    returns after one [console.error]; no store call is made, the collection
    is as before, nothing is emitted and no socket's binding changes. *)
Theorem driver_active_rejected_no_effect env socket data w :
  socket ∈ nsp_sockets w →
  has_driverId data = false →
  let m := dispatch env (Incoming socket "driver-active" data) in
  outcome m w = Normal tt
  ∧ db_calls (exec m w) = db_calls w
  ∧ collection (exec m w) = collection w
  ∧ outbox (exec m w) = outbox w
  ∧ sock_driverId (exec m w) = sock_driverId w
  ∧ nsp_sockets (exec m w) = nsp_sockets w
  ∧ console (exec m w) = console w ++ [ErrDriverIdMissing].
Proof.
  intros Hin Hbad. cbv zeta. unfold exec, outcome.
  by rewrite dispatch_driver_active_rejected.
Qed.

Lemma driver_active_rejected_no_effect_witness :
  let m := dispatch (Sample.works 3) (Incoming "A" "driver-active" JUndefined) in
  db_calls (exec m Sample.d1_online) = []
  ∧ outbox (exec m Sample.d1_online) = []
  ∧ sock_driverId (exec m Sample.d1_online) = {["A" := JStr "d1"]}.
Proof.
  intros m.
  destruct (driver_active_rejected_no_effect (Sample.works 3) "A" JUndefined
              Sample.d1_online)
    as (_ & Hcalls & _ & Hout & Hbind & _);
    [in_sample_nsp | reflexivity |].
  split; [exact Hcalls | split; [exact Hout | exact Hbind]].
Defined.

(** C8. An [update-location] message of a connected socket with a non-empty
    driverId [D], when the store write succeeds: the status a reader sees is
    the same as before for every driver, [D] included; the record of [D] has
    the message's coordinates and [lastSeen] the time of the message; the
    record of every other driver is as before. *)
Theorem update_location_keeps_status env socket data D w :
  socket ∈ nsp_sockets w →
  get_prop data "driverId" = Some D → truthy D = true →
  store_fault env = None →
  let w' := exec (dispatch env (Incoming socket "update-location" data)) w in
  (∀ d, status_of d (collection w') = status_of d (collection w))
  ∧ (∃ r c, get_prop data "coordinates" = Some c
            ∧ findOne D (collection w') = Some r
            ∧ coordinates r = Some c ∧ lastSeen r = Some (now env)
            ∧ status r = status_of D (collection w))
  ∧ (∀ d, d ≠ D → findOne d (collection w') = findOne d (collection w)).
Proof.
  intros Hin Hget HD Hok w'. subst w'. unfold exec.
  destruct (dispatch_update_location_awaits env socket data D w Hin Hget HD)
    as (c & Hc & ->).
  rewrite Hok. simpl. split; [|split].
  - intros d. unfold status_of. destruct (js_eqb_spec D d) as [<-|Hne].
    + rewrite findOne_upsert. by destruct (findOne D (collection w)).
    + by rewrite findOne_other.
  - eexists _, c. split; [done|]. rewrite findOne_upsert.
    split; [done|]. unfold status_of.
    by destruct (findOne D (collection w)).
  - intros d Hne. by apply findOne_other.
Qed.

Lemma update_location_keeps_status_witness :
  let w' := exec (dispatch (Sample.works 12)
                    (Incoming "B" "update-location" Sample.location))
              Sample.d1_online in
  status_of (JStr "d1") (collection w') = Some online.
Proof.
  intros w'.
  destruct (update_location_keeps_status (Sample.works 12) "B"
              Sample.location (JStr "d1") Sample.d1_online)
    as (Hstatus & _);
    [in_sample_nsp | reflexivity | reflexivity | reflexivity |].
  exact (Hstatus (JStr "d1")).
Defined.



(** ** Repeated check-ins *)






(** * Beyond the claims: one event *)

(** X1. An exception escapes a listener run alone in exactly three cases,
    each a [TypeError] raised outside the listener's [try] block: an
    [update-location] message whose payload is [undefined] or [null]; a
    [driver-active] message whose driverId passes the guard and has no
    string conversion (the template literal of the log line throws, after
    the socket was bound and before any store call); the close of a socket
    bound to such a value.  A rejected store call never escapes. *)
Theorem dispatch_throws_iff env ev w e :
  outcome (dispatch env ev) w = Threw e
  ↔ e = TypeError
    ∧ ((∃ id data, ev = Incoming id "update-location" data
                   ∧ id ∈ nsp_sockets w
                   ∧ (data = JUndefined ∨ data = JNull))
       ∨ (∃ id data D, ev = Incoming id "driver-active" data
                       ∧ id ∈ nsp_sockets w
                       ∧ get_prop data "driverId" = Some D
                       ∧ truthy D = true
                       ∧ has_string_conversion D = false)
       ∨ (∃ id, ev = Disconnect id ∧ id ∈ nsp_sockets w
                ∧ truthy (binding id w) = true
                ∧ has_string_conversion (binding id w) = false)).
Proof.
  unfold outcome. split.
  - dispatch_paths env ev w; cbn [fst]; try discriminate.
    + intros [= <-]. split; [done|]. right; left. by exists id, data, D.
    + intros [= <-]. split; [done|]. left. exists id, data.
      split; [done|]. split; [done|].
      destruct data; simpl in *; try discriminate; auto.
    + intros [= <-]. split; [done|]. right; right. by exists id.
  - intros (-> & [(id & data & -> & Hid & Hnull)
                 |[(id & data & D & -> & Hid & Hget & HD & Hstr)
                  |(id & -> & Hid & Hb & Hstr)]]).
    + rewrite dispatch_update_location_nullish; [done..|].
      by destruct Hnull as [-> | ->].
    + by rewrite (dispatch_driver_active_throws _ _ _ D).
    + by rewrite dispatch_disconnect_throws.
Qed.

(** X2. One transport event causes at most one emission; an emission is a
    [status-update] or a [location-received], and its recipients are
    sockets that are connected when the listener returns: nothing is ever
    sent to a socket that has closed. *)
Theorem dispatch_emits_once_to_connected env ev w :
  let w' := exec (dispatch env ev) w in
  outbox w' = outbox w
  ∨ ∃ e, outbox w' = outbox w ++ [e]
         ∧ recipients e ⊆ nsp_sockets w'
         ∧ (event e = "status-update" ∨ event e = "location-received").
Proof.
  unfold exec. dispatch_paths env ev w; simpl; try by left.
  all: right; eexists; split; [done|]; simpl; split; [|auto].
  all: first [reflexivity | apply subseteq_difference_l; reflexivity].
Qed.

(** X3. A [driver-active] message, a connection or a close makes at most
    one store call; the call is keyed by a truthy driverId, sets [lastSeen]
    to the time of the event and leaves [coordinates] alone; it writes
    status online as an upsert or status offline as a plain update. *)
Theorem presence_store_call_shape env ev w :
  is_location_update ev = false →
  let w' := exec (dispatch env ev) w in
  db_calls w' = db_calls w
  ∨ ∃ d, truthy d = true
         ∧ (db_calls w' = db_calls w ++ [mkCall d (set_online (now env)) true]
            ∨ db_calls w' =
                db_calls w ++ [mkCall d (set_offline (now env)) false]).
Proof.
  intros Hev. unfold exec.
  dispatch_paths env ev w; simpl; try discriminate; try by left.
  all: right; eexists; split; [eassumption|]; auto.
Qed.

Lemma presence_store_call_shape_witness :
  let w' := exec (dispatch (Sample.works 4) (Disconnect "A"))
              Sample.d1_online in
  db_calls w' = db_calls Sample.d1_online
  ∨ ∃ d, truthy d = true
         ∧ (db_calls w' = db_calls Sample.d1_online
                          ++ [mkCall d (set_online 4) true]
            ∨ db_calls w' = db_calls Sample.d1_online
                            ++ [mkCall d (set_offline 4) false]).
Proof.
  apply (presence_store_call_shape (Sample.works 4) (Disconnect "A")
           Sample.d1_online).
  reflexivity.
Defined.

Lemma findOne_kept d' d u upsert coll r :
  set_coordinates u = None →
  findOne d' coll = Some r →
  ∃ r', findOne d' (findOneAndUpdate d u upsert coll) = Some r'
        ∧ driverId r' = driverId r ∧ coordinates r' = coordinates r
        ∧ (d ≠ d' → r' = r).
Proof.
  intros Hu Hr. destruct (js_eqb_spec d d') as [<-|Hne].
  - destruct upsert.
    + rewrite findOne_upsert, Hr. eexists. split; [done|]. simpl.
      rewrite Hu. done.
    + rewrite findOne_update_only, Hr. eexists. split; [done|]. simpl.
      rewrite Hu. done.
  - rewrite findOne_other by done. eauto.
Qed.

Lemma length_grows d u upsert coll :
  (length coll ≤ length (findOneAndUpdate d u upsert coll))%nat.
Proof.
  induction coll as [|r rest IH]; simpl.
  - destruct upsert; simpl; lia.
  - destruct (js_eqb (driverId r) d); simpl; lia.
Qed.

(** X4. A connection, a [driver-active] message or a close never deletes a
    record and never changes the coordinates of one: every record found
    before is found after, with the same driverId and coordinates, and the
    collection does not shrink. *)
Theorem presence_keeps_records env ev w d r :
  is_location_update ev = false →
  findOne d (collection w) = Some r →
  let w' := exec (dispatch env ev) w in
  (∃ r', findOne d (collection w') = Some r'
         ∧ driverId r' = driverId r ∧ coordinates r' = coordinates r)
  ∧ (length (collection w) ≤ length (collection w'))%nat.
Proof.
  intros Hev Hr. unfold exec.
  dispatch_paths env ev w; simpl; try discriminate; try by eauto.
  - destruct (findOne_kept d D (set_online (now env)) true _ r eq_refl Hr)
      as (r' & Hr' & Hid' & Hc' & _).
    split; [eauto|]. apply length_grows.
  - destruct (findOne_kept d (binding id w)
                (set_offline (now env)) false _ r eq_refl Hr)
      as (r' & Hr' & Hid' & Hc' & _).
    split; [eauto|]. apply length_grows.
Qed.

Lemma presence_keeps_records_witness :
  let w' := exec (dispatch (Sample.works 4) (Disconnect "A"))
              Sample.d1_online in
  (∃ r', findOne (JStr "d1") (collection w') = Some r'
         ∧ driverId r' = JStr "d1" ∧ coordinates r' = None)
  ∧ (1 ≤ length (collection w'))%nat.
Proof.
  apply (presence_keeps_records (Sample.works 4) (Disconnect "A")
           Sample.d1_online (JStr "d1")
           (mkDoc (JStr "d1") (Some online) (Some 10) None));
    reflexivity.
Defined.

(** X5. The close of a connected socket whose binding, if any, has a string
    conversion runs to its end whether or not the store call is rejected:
    the listener returns normally, its last console line is the
    [User Disconnected] line of that socket, the socket is no longer in the
    namespace and no socket's [driverId] property has changed. *)
Theorem disconnect_always_completes env socket w :
  socket ∈ nsp_sockets w →
  has_string_conversion (binding socket w) = true →
  let m := dispatch env (Disconnect socket) in
  outcome m w = Normal tt
  ∧ last (console (exec m w)) = Some (LogUserDisconnected socket)
  ∧ nsp_sockets (exec m w) = nsp_sockets w ∖ {[socket]}
  ∧ sock_driverId (exec m w) = sock_driverId w.
Proof.
  intros Hin Hstr. cbv zeta. unfold outcome, exec.
  destruct (truthy (binding socket w)) eqn:Hb.
  - rewrite dispatch_disconnect_awaits by done.
    destruct (store_fault env); simpl; by rewrite last_snoc.
  - rewrite dispatch_disconnect_unbound by done. simpl. by rewrite last_snoc.
Qed.

Lemma disconnect_always_completes_witness :
  let m := dispatch (Sample.fails 6) (Disconnect "A") in
  outcome m Sample.d1_online = Normal tt
  ∧ last (console (exec m Sample.d1_online)) = Some (LogUserDisconnected "A").
Proof.
  intros m.
  destruct (disconnect_always_completes (Sample.fails 6) "A"
              Sample.d1_online) as (Hout & Hlast & _);
    [in_sample_nsp | reflexivity |].
  split; [exact Hout | exact Hlast].
Defined.

(** X7. Two connected sockets bound to the same driver [D], whose string
    conversion exists: when one of them closes and the store write succeeds
    the record of [D] goes offline, although the other socket is still
    connected and still bound to [D]. *)
Theorem close_marks_offline_despite_other_session env a b D r w :
  a ∈ nsp_sockets w → b ∈ nsp_sockets w → a ≠ b →
  binding a w = D → binding b w = D → truthy D = true →
  has_string_conversion D = true →
  findOne D (collection w) = Some r →
  store_fault env = None →
  let w' := exec (dispatch env (Disconnect a)) w in
  status_of D (collection w') = Some offline
  ∧ b ∈ nsp_sockets w' ∧ binding b w' = D.
Proof.
  intros Ha Hb Hab Hba Hbb HD Hstr Hr Hok w'. subst w'. unfold exec.
  rewrite dispatch_disconnect_awaits by (by rewrite ?Hba).
  rewrite Hok, Hba. simpl. unfold status_of.
  rewrite findOne_update_only, Hr. split; [done|]. split; [|done].
  apply elem_of_difference. split; [done|].
  rewrite elem_of_singleton. congruence.
Qed.

Lemma close_marks_offline_despite_other_session_witness :
  let w' := exec (dispatch (Sample.works 11) (Disconnect "A"))
              Sample.d1_twice in
  status_of (JStr "d1") (collection w') = Some offline
  ∧ "B" ∈ nsp_sockets w' ∧ binding "B" w' = JStr "d1".
Proof.
  intros w'.
  apply (close_marks_offline_despite_other_session (Sample.works 11) "A" "B"
           (JStr "d1") (mkDoc (JStr "d1") (Some online) (Some 10) None)
           Sample.d1_twice);
    try reflexivity; try discriminate; in_sample_nsp.
Defined.

(** X8. A check-in whose store write is rejected leaves nothing behind that
    a retry could see: the same check-in sent again ends with the same
    collection, the same bindings, the same connected sockets and the same
    emissions as if the rejected one had never been sent. *)
Theorem rejected_checkin_then_retry env1 env2 msg socket data D w :
  socket ∈ nsp_sockets w →
  get_prop data "driverId" = Some D → truthy D = true →
  store_fault env1 = Some msg →
  let again := dispatch env2 (Incoming socket "driver-active" data) in
  let w1 := exec (dispatch env1 (Incoming socket "driver-active" data)) w in
  collection (exec again w1) = collection (exec again w)
  ∧ sock_driverId (exec again w1) = sock_driverId (exec again w)
  ∧ nsp_sockets (exec again w1) = nsp_sockets (exec again w)
  ∧ outbox (exec again w1) = outbox (exec again w).
Proof.
  intros Hin Hget HD Hko again w1. subst again w1. unfold exec.
  destruct (has_string_conversion D) eqn:Hstr.
  - rewrite (dispatch_driver_active_awaits env1 _ _ D) by done.
    rewrite Hko. cbn [snd].
    rewrite !(dispatch_driver_active_awaits env2 _ _ D) by done.
    destruct (store_fault env2); simpl; by rewrite insert_insert_eq.
  - rewrite (dispatch_driver_active_throws env1 _ _ D) by done. cbn [snd].
    rewrite !(dispatch_driver_active_throws env2 _ _ D) by done.
    simpl. by rewrite insert_insert_eq.
Qed.

Lemma rejected_checkin_then_retry_witness :
  let again := dispatch (Sample.works 9)
                 (Incoming "A" "driver-active" (Sample.checkin "d1")) in
  let w1 := exec (dispatch (Sample.fails 8)
                    (Incoming "A" "driver-active" (Sample.checkin "d1")))
              Sample.two_sockets in
  collection (exec again w1) = collection (exec again Sample.two_sockets)
  ∧ outbox (exec again w1) = outbox (exec again Sample.two_sockets).
Proof.
  intros again w1.
  destruct (rejected_checkin_then_retry (Sample.fails 8) (Sample.works 9)
              "ECONNREFUSED" "A" (Sample.checkin "d1") (JStr "d1")
              Sample.two_sockets) as (Hc & _ & _ & Ho);
    [in_sample_nsp | reflexivity | reflexivity | reflexivity |].
  split; [exact Hc | exact Ho].
Defined.

(** X10. Relaying positions does not bind a session: a connected socket
    that never checked in and sends an [update-location] message, of any
    payload and whatever the store does, is still unbound afterwards, and
    its close makes no store call, changes no record and emits nothing: the
    driver whose positions it reported is not marked offline. *)
Theorem relay_only_session_closes_silently env1 env2 socket data w :
  socket ∈ nsp_sockets w →
  truthy (binding socket w) = false →
  let w1 := exec (dispatch env1 (Incoming socket "update-location" data)) w in
  let w2 := exec (dispatch env2 (Disconnect socket)) w1 in
  truthy (binding socket w1) = false
  ∧ db_calls w2 = db_calls w1
  ∧ collection w2 = collection w1
  ∧ outbox w2 = outbox w1.
Proof.
  intros Hin Hb w1 w2.
  assert (sock_driverId w1 = sock_driverId w
          ∧ nsp_sockets w1 = nsp_sockets w) as [Hs Hn].
  { subst w1. unfold exec.
    destruct (get_prop data "driverId") as [d|] eqn:Hget.
    - destruct (truthy d) eqn:Hd.
      + destruct (dispatch_update_location_awaits env1 socket data d w
                    Hin Hget Hd) as (c & _ & ->).
        by destruct (store_fault env1).
      + by rewrite (dispatch_update_location_falsy _ _ _ d).
    - by rewrite dispatch_update_location_nullish. }
  assert (binding socket w1 = binding socket w) as Hb1
    by (unfold binding; by rewrite Hs).
  split; [by rewrite Hb1|].
  subst w2. unfold exec.
  rewrite dispatch_disconnect_unbound; [done|by rewrite Hn|by rewrite Hb1].
Qed.

Lemma relay_only_session_closes_silently_witness :
  let w1 := exec (dispatch (Sample.works 31)
                    (Incoming "B" "update-location" Sample.location))
              Sample.d1_online in
  let w2 := exec (dispatch (Sample.works 32) (Disconnect "B")) w1 in
  db_calls w2 = db_calls w1 ∧ outbox w2 = outbox w1.
Proof.
  intros w1 w2.
  destruct (relay_only_session_closes_silently (Sample.works 31)
              (Sample.works 32) "B" Sample.location Sample.d1_online)
    as (_ & Hcalls & _ & Hout); [in_sample_nsp | reflexivity |].
  split; [exact Hcalls | exact Hout].
Defined.

(** X17. A [driver-active] message whose driverId passes the guard and has
    no string conversion (an object with an own [toString] property, which
    a JSON payload can carry): the socket is bound to the value at line 39,
    then the template literal of the log line throws a [TypeError] outside
    the [try] block; no store call is made, nothing is emitted, no console
    line is written and no record changes. *)
Theorem unprintable_checkin_throws env socket data D w :
  socket ∈ nsp_sockets w →
  get_prop data "driverId" = Some D → truthy D = true →
  has_string_conversion D = false →
  let checkin := dispatch env (Incoming socket "driver-active" data) in
  outcome checkin w = Threw TypeError
  ∧ binding socket (exec checkin w) = D
  ∧ db_calls (exec checkin w) = db_calls w
  ∧ collection (exec checkin w) = collection w
  ∧ outbox (exec checkin w) = outbox w
  ∧ console (exec checkin w) = console w
  ∧ nsp_sockets (exec checkin w) = nsp_sockets w.
Proof.
  intros Hin Hget HD Hstr checkin. subst checkin. unfold outcome, exec.
  rewrite (dispatch_driver_active_throws _ _ _ D) by done.
  cbn [fst snd]. split; [done|]. split; [|done].
  unfold binding. simpl. by rewrite lookup_insert_eq.
Qed.

Lemma unprintable_checkin_throws_witness :
  let checkin :=
    dispatch (Sample.works 5)
      (Incoming "A" "driver-active" Sample.checkin_unprintable) in
  outcome checkin Sample.two_sockets = Threw TypeError
  ∧ db_calls (exec checkin Sample.two_sockets) = [].
Proof.
  intros checkin.
  destruct (unprintable_checkin_throws (Sample.works 5) "A"
              Sample.checkin_unprintable
              (JObj [("toString", JNum (1 # 1))]) Sample.two_sockets)
    as (Hthrows & _ & Hcalls & _);
    [in_sample_nsp | reflexivity | reflexivity | reflexivity |].
  split; [exact Hthrows | exact Hcalls].
Defined.

(** * Beyond the claims: runs of the event loop *)

Lemma idle_waiting w :
  map_Forall (λ _ task, Waiting (world (idle w)) task) (tasks (idle w)).
Proof. apply map_Forall_empty. Qed.

(** ** The [driverId] property of a socket *)

Lemma tick_keeps_bindings_truthy x s :
  map_Forall (λ _ task, Waiting (world s) task) (tasks s) →
  map_Forall (λ _ v, truthy v = true) (sock_driverId (world s)) →
  map_Forall (λ _ v, truthy v = true)
    (sock_driverId (world (exec (tick x) s))).
Proof.
  intros Hw Hb. unfold exec.
  tick_paths x s Hw; cbn [fst snd world]; simpl; try done.
  - by apply map_Forall_delete.
  - by apply map_Forall_insert_2.
  - by apply map_Forall_insert_2.
Qed.

(** X11. In every world a run of the event loop reaches from the start of
    the server, whatever the order in which events arrive, the store
    answers and the listeners go on, the [driverId] property of a socket is
    either absent or truthy: the test [if (socket.driverId)] of the close
    listener passes exactly for the sockets that have the property. *)
Theorem reachable_bound_iff_property_set xs id :
  let w := world (exec (run xs) (idle initial)) in
  truthy (binding id w) = true ↔ is_Some (sock_driverId w !! id).
Proof.
  intros w. unfold binding.
  assert (map_Forall (λ _ v, truthy v = true) (sock_driverId w)) as Hinv.
  { subst w.
    apply (run_invariant
             (λ s, map_Forall (λ _ task, Waiting (world s) task) (tasks s)
                   ∧ map_Forall (λ _ v, truthy v = true)
                       (sock_driverId (world s)))).
    - intros x s [Hw Hb]. split.
      + by apply tick_keeps_waiting.
      + by apply tick_keeps_bindings_truthy.
    - split; [apply idle_waiting|]. apply map_Forall_empty. }
  destruct (sock_driverId w !! id) as [v|] eqn:Hv; simpl.
  - split; [eauto|]. intros _. apply (Hinv id v Hv).
  - split; [done|]. by intros [? ?].
Qed.

(** ** At most one record per driver *)

Lemma findOneAndUpdate_unique d u upsert coll :
  unique_keys coll → unique_keys (findOneAndUpdate d u upsert coll).
Proof.
  intros Hu d'. specialize (Hu d'). destruct (js_eqb_spec d d') as [<-|Hne].
  - destruct upsert; [rewrite count_upsert; lia|].
    by rewrite count_update_only.
  - by rewrite count_other.
Qed.

Lemma tick_keeps_unique x s :
  map_Forall (λ _ task, Waiting (world s) task) (tasks s) →
  unique_keys (collection (world s)) →
  unique_keys (collection (world (exec (tick x) s))).
Proof.
  intros Hw Hu. unfold exec.
  tick_paths x s Hw; cbn [fst snd world]; simpl; try done.
  all: by apply findOneAndUpdate_unique.
Qed.

(** X12. No run gives a driver a second record: when the collection has at
    most one record per driverId, it still has after any run of the event
    loop, whatever the order of the events and whatever the store answers
    ([update-location] writes through the upsert of [saveLocation]). *)
Theorem run_keeps_one_record_per_driver xs w :
  unique_keys (collection w) →
  unique_keys (collection (world (exec (run xs) (idle w)))).
Proof.
  intros Hu.
  apply (run_invariant
           (λ s, map_Forall (λ _ task, Waiting (world s) task) (tasks s)
                 ∧ unique_keys (collection (world s)))).
  - intros x s [Hw Hs]. split.
    + by apply tick_keeps_waiting.
    + by apply tick_keeps_unique.
  - split; [apply idle_waiting|done].
Qed.

Lemma run_keeps_one_record_per_driver_witness :
  unique_keys
    (collection
       (world
          (exec (run [Arrive 1 (Connection "C");
                      Arrive 2
                        (Incoming "C" "driver-active" (Sample.checkin "d1"));
                      Arrive 3
                        (Incoming "A" "driver-active" (Sample.checkin "d1"));
                      StoreAnswers 1 None; StoreAnswers 0 None;
                      Resume 0; Resume 1])
             (idle Sample.d1_online)))).
Proof.
  apply (run_keeps_one_record_per_driver _ Sample.d1_online).
  intros d. unfold Sample.d1_online.
  cbn [collection countDocuments driverId].
  destruct (js_eqb (JStr "d1") d); simpl; lia.
Defined.

(** ** Offline announcements *)

Lemma tick_keeps_checkin_evidence x s :
  map_Forall (λ _ task, Waiting (world s) task) (tasks s) →
  ((∀ id v, sock_driverId (world s) !! id = Some v →
      has_string_conversion v = true →
      ∃ t, mkCall v (set_online t) true ∈ db_calls (world s))
   ∧ (∀ to D,
        mkEmission to "status-update" (status_update D "offline")
          ∈ outbox (world s) →
        ∃ t, mkCall D (set_online t) true ∈ db_calls (world s))) →
  let w' := world (exec (tick x) s) in
  (∀ id v, sock_driverId w' !! id = Some v →
     has_string_conversion v = true →
     ∃ t, mkCall v (set_online t) true ∈ db_calls w')
  ∧ (∀ to D,
       mkEmission to "status-update" (status_update D "offline") ∈ outbox w' →
       ∃ t, mkCall D (set_online t) true ∈ db_calls w').
Proof.
  intros Hw [Hbind Hsent]. unfold exec.
  assert (∀ (calls more : list Call) v,
            (∃ t, mkCall v (set_online t) true ∈ calls) →
            ∃ t, mkCall v (set_online t) true ∈ calls ++ more) as Hgrow.
  { intros calls more v [t Ht]. exists t. apply elem_of_app. by left. }
  assert (∀ (calls : list Call) v t,
            ∃ t', mkCall v (set_online t') true
                  ∈ calls ++ [mkCall v (set_online t) true]) as Hnew.
  { intros calls v t. exists t. apply elem_of_app. right.
    by apply list_elem_of_singleton. }
  tick_paths x s Hw; cbn [fst snd world]; simpl;
    try (split; assumption).
  - (* a new connection *)
    split; [|done]. intros k v [_ Hv]%lookup_delete_Some. eauto.
  - (* a check-in that throws at its log line *)
    split; [|done].
    intros k v [[-> ->]|[_ Hv]]%lookup_insert_Some Hv'; [congruence|eauto].
  - (* a check-in *)
    split.
    + intros k v [[-> ->]|[_ Hv]]%lookup_insert_Some Hv'; [apply Hnew|].
      apply Hgrow. eauto.
    + intros to D' Hin. apply Hgrow. eauto.
  - (* a position update *)
    split.
    + intros k v Hv Hv'. apply Hgrow. eauto.
    + intros to D' Hin. apply Hgrow. eauto.
  - (* the close of a bound socket *)
    split.
    + intros k v Hv Hv'. apply Hgrow. eauto.
    + intros to D' Hin. apply Hgrow. eauto.
  - (* the check-in goes on, written *)
    split; [done|].
    intros to D' [Hin|Hin%list_elem_of_singleton]%elem_of_app; [eauto|].
    discriminate Hin.
  - (* the position update goes on, written *)
    split; [done|].
    intros to D' [Hin|Hin%list_elem_of_singleton]%elem_of_app; [eauto|].
    discriminate Hin.
  - (* the close goes on, written *)
    split; [done|].
    intros to D' [Hin|Hin%list_elem_of_singleton]%elem_of_app; [eauto|].
    injection Hin as _ ->. unfold binding. simpl. rewrite Hbound. simpl.
    eauto.
Qed.

(** X13. The server never announces offline a driver no session checked in
    as: in a run of the event loop from the start, in whatever order the
    events arrive, the store answers and the listeners go on, every
    [status-update] emission with payload [{driverId: D, status: "offline"}]
    comes after an online store call for [D] made by a check-in (a call
    that may have been rejected). *)
Theorem offline_only_after_checkin xs to D :
  mkEmission to "status-update" (status_update D "offline")
    ∈ outbox (world (exec (run xs) (idle initial))) →
  ∃ t, mkCall D (set_online t) true
       ∈ db_calls (world (exec (run xs) (idle initial))).
Proof.
  revert to D.
  apply (run_invariant
           (λ s, map_Forall (λ _ task, Waiting (world s) task) (tasks s)
                 ∧ (∀ id v, sock_driverId (world s) !! id = Some v →
                      has_string_conversion v = true →
                      ∃ t, mkCall v (set_online t) true
                           ∈ db_calls (world s))
                 ∧ (∀ to D,
                      mkEmission to "status-update"
                        (status_update D "offline") ∈ outbox (world s) →
                      ∃ t, mkCall D (set_online t) true
                           ∈ db_calls (world s)))).
  - intros x s [Hw Hs]. split; [by apply tick_keeps_waiting|].
    by apply tick_keeps_checkin_evidence.
  - split; [apply idle_waiting|]. split.
    + intros id v Hv. unfold initial in Hv; simpl in Hv.
      by rewrite lookup_empty in Hv.
    + intros to' D' Hin. unfold initial in Hin; simpl in Hin.
      by apply elem_of_nil in Hin.
Qed.

Lemma offline_only_after_checkin_witness :
  ∃ t, mkCall (JStr "d1") (set_online t) true
       ∈ db_calls
           (world
              (exec (run [Arrive 1 (Connection "A");
                          Arrive 2
                            (Incoming "A" "driver-active"
                               (Sample.checkin "d1"));
                          Arrive 3 (Disconnect "A");
                          StoreAnswers 1 None; Resume 1;
                          StoreAnswers 0 (Some "ETIMEDOUT"); Resume 0])
                 (idle initial))).
Proof.
  apply (offline_only_after_checkin
           [Arrive 1 (Connection "A");
            Arrive 2 (Incoming "A" "driver-active" (Sample.checkin "d1"));
            Arrive 3 (Disconnect "A");
            StoreAnswers 1 None; Resume 1;
            StoreAnswers 0 (Some "ETIMEDOUT"); Resume 0]
           (({["A"]} ∪ ∅) ∖ {["A"]}) (JStr "d1")).
  vm_compute. apply list_elem_of_here.
Defined.

(** ** Schedules *)

Lemma tick_checkin t socket data D s :
  socket ∈ nsp_sockets (world s) →
  get_prop data "driverId" = Some D → truthy D = true →
  has_string_conversion D = true →
  tick (Arrive t (Incoming socket "driver-active" data)) s
  = (Normal tt,
     {| world := issue (mkCall D (set_online t) true)
                   (log (LogDriverOnline D)
                      (set_socket_driverId socket D (world s)));
        tasks := <[next_ticket s :=
                     mkTask (mkCall D (set_online t) true) None
                       (after_online_write D)]> (tasks s);
        next_ticket := S (next_ticket s) |}).
Proof.
  intros Hin Hget HD Hstr. unfold tick.
  rewrite transport_driver_active by done. cbn [fst snd].
  by rewrite (advance_driver_active_awaits _ _ _ D).
Qed.

Lemma tick_close t socket D s :
  socket ∈ nsp_sockets (world s) →
  binding socket (world s) = D → truthy D = true →
  has_string_conversion D = true →
  tick (Arrive t (Disconnect socket)) s
  = (Normal tt,
     {| world := issue (mkCall D (set_offline t) false)
                   (log (LogDriverOffline D) (nsp_remove socket (world s)));
        tasks := <[next_ticket s :=
                     mkTask (mkCall D (set_offline t) false) None
                       (after_offline_write socket)]> (tasks s);
        next_ticket := S (next_ticket s) |}).
Proof.
  intros Hin Hb HD Hstr. unfold tick.
  rewrite transport_disconnect by done. cbn [fst snd].
  rewrite (advance_disconnect_awaits t socket (nsp_remove socket (world s)));
    change (binding socket (nsp_remove socket (world s)))
      with (binding socket (world s)); by rewrite ?Hb.
Qed.

Lemma tick_store_answers n fault c k s :
  tasks s !! n = Some (mkTask c None k) →
  tick (StoreAnswers n fault) s
  = (Normal tt,
     {| world := store_answers c fault (world s);
        tasks := <[n := mkTask c (Some (answer_of fault)) k]> (tasks s);
        next_ticket := next_ticket s |}).
Proof. intros Hn. unfold tick. by rewrite Hn. Qed.

Lemma tick_resume n c a k s :
  tasks s !! n = Some (mkTask c (Some a) k) →
  tick (Resume n) s
  = park (advance (k a) (world s))
      {| world := world s; tasks := delete n (tasks s);
         next_ticket := next_ticket s |}.
Proof. intros Hn. unfold tick. by rewrite Hn. Qed.

(** X9. A session that checks in as [D] and closes after the check-in has
    been handled to its end (the online write answered and the listener
    gone on before the close arrives), both store writes succeeding: the
    record of [D] ends with status offline and [lastSeen] the time of the
    close, with the coordinates it had before the check-in; the check-in
    adds a record only when [D] had none and the close adds none; the
    emissions are online to all connected sockets, then offline to all of
    them but the closed one. *)
Theorem checkin_then_close t1 t2 socket data D w :
  socket ∈ nsp_sockets w →
  get_prop data "driverId" = Some D → truthy D = true →
  has_string_conversion D = true →
  let schedule :=
    [Arrive t1 (Incoming socket "driver-active" data);
     StoreAnswers 0 None; Resume 0;
     Arrive t2 (Disconnect socket);
     StoreAnswers 1 None; Resume 1] in
  let w2 := world (exec (run schedule) (idle w)) in
  outcome (run schedule) (idle w) = Normal tt
  ∧ findOne D (collection w2) =
      Some (mkDoc D (Some offline) (Some t2)
              (r ← findOne D (collection w); coordinates r))
  ∧ countDocuments D (collection w2)
    = Nat.max 1 (countDocuments D (collection w))
  ∧ outbox w2 = outbox w ++
      [mkEmission (nsp_sockets w) "status-update" (status_update D "online");
       mkEmission (nsp_sockets w ∖ {[socket]}) "status-update"
         (status_update D "offline")].
Proof.
  intros Hin Hget HD Hstr schedule w2. subst w2 schedule.
  unfold outcome, exec.
  rewrite run_cons, (tick_checkin t1 socket data D) by done.
  cbn [idle world tasks next_ticket].
  rewrite run_cons, (tick_store_answers 0 None _ (after_online_write D))
    by (cbn [tasks]; apply lookup_insert_eq).
  cbn [idle world tasks next_ticket answer_of store_answers].
  rewrite run_cons, (tick_resume 0 _ Fulfilled (after_online_write D))
    by (cbn [tasks]; apply lookup_insert_eq).
  rewrite advance_after_online_write. unfold park.
  cbn [idle world tasks next_ticket].
  rewrite run_cons, (tick_close t2 socket D);
    [|done|unfold binding; simpl; by rewrite lookup_insert_eq|done|done].
  cbn [idle world tasks next_ticket].
  rewrite run_cons, (tick_store_answers 1 None _ (after_offline_write socket))
    by (cbn [tasks]; apply lookup_insert_eq).
  cbn [idle world tasks next_ticket answer_of store_answers].
  rewrite run_cons, (tick_resume 1 _ Fulfilled (after_offline_write socket))
    by (cbn [tasks]; apply lookup_insert_eq).
  rewrite advance_after_offline_write. unfold park.
  unfold binding. simpl. rewrite lookup_insert_eq. simpl.
  split; [done|]. split; [|split].
  - rewrite findOne_update_only, findOne_upsert. simpl.
    destruct (findOne D (collection w)) as [r|] eqn:Hr; simpl; [|done].
    apply findOne_key in Hr as Hkey.
    unfold apply_update; simpl. by rewrite Hkey.
  - by rewrite count_update_only, count_upsert.
  - by rewrite <- app_assoc.
Qed.

Lemma checkin_then_close_witness :
  let schedule :=
    [Arrive 21 (Incoming "B" "driver-active" (Sample.checkin "d9"));
     StoreAnswers 0 None; Resume 0;
     Arrive 22 (Disconnect "B");
     StoreAnswers 1 None; Resume 1] in
  let w2 := world (exec (run schedule) (idle Sample.d1_online)) in
  findOne (JStr "d9") (collection w2) =
    Some (mkDoc (JStr "d9") (Some offline) (Some 22) None)
  ∧ countDocuments (JStr "d9") (collection w2) = 1%nat.
Proof.
  intros schedule w2.
  destruct (checkin_then_close 21 22 "B" (Sample.checkin "d9") (JStr "d9")
              Sample.d1_online)
    as (_ & Hr & Hc & _);
    [in_sample_nsp | reflexivity | reflexivity | reflexivity |].
  split; [exact Hr | exact Hc].
Defined.

(** X6. A session that checks in as [D1], then as a different [D2], then
    closes, each event handled to its end before the next arrives and every
    store write succeeding, marks only [D2] offline: the record of [D1] is
    left with status online, and the three emissions are online for [D1],
    online for [D2], offline for [D2]. *)
Theorem rebound_session_leaves_first_driver_online
    t1 t2 t3 socket data1 data2 D1 D2 w :
  socket ∈ nsp_sockets w →
  get_prop data1 "driverId" = Some D1 → truthy D1 = true →
  has_string_conversion D1 = true →
  get_prop data2 "driverId" = Some D2 → truthy D2 = true →
  has_string_conversion D2 = true →
  D1 ≠ D2 →
  let schedule :=
    [Arrive t1 (Incoming socket "driver-active" data1);
     StoreAnswers 0 None; Resume 0;
     Arrive t2 (Incoming socket "driver-active" data2);
     StoreAnswers 1 None; Resume 1;
     Arrive t3 (Disconnect socket);
     StoreAnswers 2 None; Resume 2] in
  let w3 := world (exec (run schedule) (idle w)) in
  outcome (run schedule) (idle w) = Normal tt
  ∧ status_of D1 (collection w3) = Some online
  ∧ status_of D2 (collection w3) = Some offline
  ∧ outbox w3 = outbox w ++
      [mkEmission (nsp_sockets w) "status-update" (status_update D1 "online");
       mkEmission (nsp_sockets w) "status-update" (status_update D2 "online");
       mkEmission (nsp_sockets w ∖ {[socket]}) "status-update"
         (status_update D2 "offline")].
Proof.
  intros Hin Hg1 HD1 Hs1 Hg2 HD2 Hs2 Hne schedule w3. subst w3 schedule.
  unfold outcome, exec.
  rewrite run_cons, (tick_checkin t1 socket data1 D1) by done.
  cbn [idle world tasks next_ticket].
  rewrite run_cons, (tick_store_answers 0 None _ (after_online_write D1))
    by (cbn [tasks]; apply lookup_insert_eq).
  cbn [idle world tasks next_ticket answer_of store_answers].
  rewrite run_cons, (tick_resume 0 _ Fulfilled (after_online_write D1))
    by (cbn [tasks]; apply lookup_insert_eq).
  rewrite advance_after_online_write. unfold park.
  cbn [idle world tasks next_ticket].
  rewrite run_cons, (tick_checkin t2 socket data2 D2) by done.
  cbn [idle world tasks next_ticket].
  rewrite run_cons, (tick_store_answers 1 None _ (after_online_write D2))
    by (cbn [tasks]; apply lookup_insert_eq).
  cbn [idle world tasks next_ticket answer_of store_answers].
  rewrite run_cons, (tick_resume 1 _ Fulfilled (after_online_write D2))
    by (cbn [tasks]; apply lookup_insert_eq).
  rewrite advance_after_online_write. unfold park.
  cbn [idle world tasks next_ticket].
  rewrite run_cons, (tick_close t3 socket D2);
    [|done|unfold binding; simpl; by rewrite lookup_insert_eq|done|done].
  cbn [idle world tasks next_ticket].
  rewrite run_cons, (tick_store_answers 2 None _ (after_offline_write socket))
    by (cbn [tasks]; apply lookup_insert_eq).
  cbn [idle world tasks next_ticket answer_of store_answers].
  rewrite run_cons, (tick_resume 2 _ Fulfilled (after_offline_write socket))
    by (cbn [tasks]; apply lookup_insert_eq).
  rewrite advance_after_offline_write. unfold park.
  unfold binding. simpl. rewrite lookup_insert_eq. simpl.
  split; [done|]. unfold status_of. split; [|split].
  - rewrite !findOne_other by done. by rewrite findOne_upsert.
  - rewrite findOne_update_only, findOne_upsert. done.
  - by rewrite <- !app_assoc.
Qed.

Lemma rebound_session_leaves_first_driver_online_witness :
  let schedule :=
    [Arrive 1 (Incoming "A" "driver-active" (Sample.checkin "d1"));
     StoreAnswers 0 None; Resume 0;
     Arrive 2 (Incoming "A" "driver-active" (Sample.checkin "d2"));
     StoreAnswers 1 None; Resume 1;
     Arrive 3 (Disconnect "A");
     StoreAnswers 2 None; Resume 2] in
  let w3 := world (exec (run schedule) (idle Sample.two_sockets)) in
  status_of (JStr "d1") (collection w3) = Some online
  ∧ status_of (JStr "d2") (collection w3) = Some offline.
Proof.
  intros schedule w3.
  destruct (rebound_session_leaves_first_driver_online 1 2 3 "A"
              (Sample.checkin "d1") (Sample.checkin "d2")
              (JStr "d1") (JStr "d2") Sample.two_sockets)
    as (_ & H1 & H2 & _);
    [in_sample_nsp | reflexivity | reflexivity | reflexivity | reflexivity
    | reflexivity | reflexivity | discriminate |].
  split; [exact H1 | exact H2].
Defined.

(** X16. The listeners wait for the store before they emit, so the close
    of a socket can be handled while its check-in is still waiting.  When
    the offline write of the close is answered first and the online write
    of the check-in after it, both succeeding: the offline announcement is
    emitted before the online one, neither reaches the closed socket, and
    the record of [D] is left with status online and the [lastSeen] of the
    check-in although the session is gone. *)
Theorem close_overtakes_checkin t1 t2 socket data D w :
  socket ∈ nsp_sockets w →
  get_prop data "driverId" = Some D → truthy D = true →
  has_string_conversion D = true →
  let schedule :=
    [Arrive t1 (Incoming socket "driver-active" data);
     Arrive t2 (Disconnect socket);
     StoreAnswers 1 None; Resume 1;
     StoreAnswers 0 None; Resume 0] in
  let w2 := world (exec (run schedule) (idle w)) in
  outcome (run schedule) (idle w) = Normal tt
  ∧ (socket ∉ nsp_sockets w2)
  ∧ findOne D (collection w2) =
      Some (mkDoc D (Some online) (Some t1)
              (r ← findOne D (collection w); coordinates r))
  ∧ db_calls w2 = db_calls w ++
      [mkCall D (set_online t1) true; mkCall D (set_offline t2) false]
  ∧ outbox w2 = outbox w ++
      [mkEmission (nsp_sockets w ∖ {[socket]}) "status-update"
         (status_update D "offline");
       mkEmission (nsp_sockets w ∖ {[socket]}) "status-update"
         (status_update D "online")].
Proof.
  intros Hin Hget HD Hstr schedule w2. subst w2 schedule.
  unfold outcome, exec.
  rewrite run_cons, (tick_checkin t1 socket data D) by done.
  cbn [idle world tasks next_ticket].
  rewrite run_cons, (tick_close t2 socket D);
    [|done|unfold binding; simpl; by rewrite lookup_insert_eq|done|done].
  cbn [idle world tasks next_ticket].
  rewrite run_cons, (tick_store_answers 1 None _ (after_offline_write socket))
    by (cbn [tasks]; apply lookup_insert_eq).
  cbn [idle world tasks next_ticket answer_of store_answers].
  rewrite run_cons, (tick_resume 1 _ Fulfilled (after_offline_write socket))
    by (cbn [tasks]; apply lookup_insert_eq).
  rewrite advance_after_offline_write. unfold park.
  cbn [idle world tasks next_ticket].
  rewrite run_cons,
    (tick_store_answers 0 None (mkCall D (set_online t1) true)
       (after_online_write D)).
  2:{ cbn [tasks]. rewrite lookup_delete_ne, !lookup_insert_ne by done.
      apply lookup_insert_eq. }
  cbn [idle world tasks next_ticket answer_of store_answers].
  rewrite run_cons, (tick_resume 0 _ Fulfilled (after_online_write D))
    by (cbn [tasks]; apply lookup_insert_eq).
  rewrite advance_after_online_write. unfold park.
  unfold binding. simpl. rewrite lookup_insert_eq. simpl.
  split; [done|]. split; [|split; [|split]].
  - intros [_ Hne]%elem_of_difference. apply Hne. by apply elem_of_singleton.
  - rewrite findOne_upsert, findOne_update_only. simpl.
    destruct (findOne D (collection w)) as [r|] eqn:Hr; simpl; [|done].
    apply findOne_key in Hr as Hkey.
    unfold apply_update; simpl. by rewrite Hkey.
  - by rewrite <- app_assoc.
  - by rewrite <- app_assoc.
Qed.

Lemma close_overtakes_checkin_witness :
  let schedule :=
    [Arrive 21 (Incoming "A" "driver-active" (Sample.checkin "d1"));
     Arrive 22 (Disconnect "A");
     StoreAnswers 1 None; Resume 1;
     StoreAnswers 0 None; Resume 0] in
  let w2 := world (exec (run schedule) (idle Sample.two_sockets)) in
  ("A" ∉ nsp_sockets w2)
  ∧ findOne (JStr "d1") (collection w2) =
      Some (mkDoc (JStr "d1") (Some online) (Some 21) None).
Proof.
  intros schedule w2.
  destruct (close_overtakes_checkin 21 22 "A" (Sample.checkin "d1")
              (JStr "d1") Sample.two_sockets)
    as (_ & Hout & Hr & _);
    [in_sample_nsp | reflexivity | reflexivity | reflexivity |].
  split; [exact Hout | exact Hr].
Defined.

(** * Beyond the claims: the start of the process *)

Import Boot.

(** X14. [startServer] calls [server.listen] at most once, with [PORT] as
    its argument, and does so exactly when [MONGO_URI] is set and not empty
    and [mongoose.connect] was not rejected; the server accepts connections
    exactly when, in addition, that call went through.  [PORT] is the
    [PORT] variable as the string it is, or the number 3000 when the
    variable is not set or empty; what the string makes [server.listen] do
    (a port, a port the system chooses, a pipe, an error) is left to the
    call.  When the server accepts connections, [mongoose.connect] was
    called once with the URI, the line [Server running] was written and the
    process has not exited. *)
Theorem startServer_listens_iff pe o :
  let p := startServer pe o in
  let connected :=
    ∃ uri, env_MONGO_URI pe = Some uri ∧ uri ≠ ""
           ∧ connect_fault o = None ∧ connect_calls p = [JStr uri] in
  (listen_calls p = [PORT pe] ↔ connected)
  ∧ (listen_calls p = [] ∨ listen_calls p = [PORT pe])
  ∧ (accepting p = true ↔ connected ∧ listen_does o (PORT pe) = Listens)
  ∧ (accepting p = true →
     exit_code p = None ∧ LogServerRunning (PORT pe) ∈ boot_console p)
  ∧ PORT pe = match env_PORT pe with
              | Some s => if String.eqb s "" then JNum (3000 # 1) else JStr s
              | None => JNum (3000 # 1)
              end.
Proof.
  cbv zeta. split; [|split; [|split; [|split]]].
  5:{ unfold PORT, env_value. destruct (env_PORT pe) as [s|]; simpl; [|done].
      by destruct (String.eqb s ""). }
  all: unfold startServer, startServer_try, MONGO_URI, env_value.
  all: destruct (env_MONGO_URI pe) as [uri|]; simpl;
    [destruct (String.eqb_spec uri "") as [->|Huri]; simpl;
     [|destruct (connect_fault o) as [msg|]; simpl;
       [|destruct (listen_does o (PORT pe)); simpl]]|].
  all: try (by left).
  all: try (by right).
  all: try (split; [done|]; by intros (? & ? & ? & ? & ?)).
  all: try (split; [done|]; by intros ((? & ? & ? & ? & ?) & ?)).
  all: try (split; [done|]; by intros (? & [= <-] & ? & ? & ?)).
  all: try (split; [done|]; by intros ((? & [= <-] & ? & ? & ?) & ?)).
  all: try (split; [intros _; by exists uri|done]).
  all: try done.
  - split; [intros _|done]. split; [by exists uri|done].
  - intros _. split; [done|]. apply list_elem_of_further, list_elem_of_here.
Qed.

(** X15. The [Database Connection Failed] line is written, with a given
    message, in exactly three cases: [MONGO_URI] is not set or empty (the
    message is the fixed one, and [mongoose.connect] was never called);
    [mongoose.connect] was rejected with that message; or the connection
    succeeded and [server.listen] threw with that message, which is then
    reported as a database failure too.  In each of them the process exits
    with code 1 and the server accepts no connection. *)
Theorem startServer_failure_line pe o message :
  let failed :=
    (truthy (MONGO_URI pe) = false
     ∧ message = "MONGO_URI is missing in .env file"
     ∧ connect_calls (startServer pe o) = [])
    ∨ (truthy (MONGO_URI pe) = true ∧ connect_fault o = Some message)
    ∨ (truthy (MONGO_URI pe) = true ∧ connect_fault o = None
       ∧ listen_does o (PORT pe) = ListenThrows message) in
  (ErrDatabaseConnectionFailed message ∈ boot_console (startServer pe o)
   ↔ failed)
  ∧ (failed → exit_code (startServer pe o) = Some 1
              ∧ accepting (startServer pe o) = false).
Proof.
  cbv zeta. unfold startServer, startServer_try.
  destruct (truthy (MONGO_URI pe)) eqn:Huri; simpl.
  - destruct (connect_fault o) as [msg|] eqn:Hc; simpl.
    + split.
      * rewrite list_elem_of_singleton. split.
        -- intros [= ->]. right; left. done.
        -- intros [(? & _)|[(_ & [= ->])|(_ & ? & _)]]; done.
      * done.
    + destruct (listen_does o (PORT pe)) as [|msg|] eqn:Hl; simpl.
      * split.
        -- split.
           ++ intros [H|H%list_elem_of_singleton]%elem_of_cons; done.
           ++ intros [(? & _)|[(_ & ?)|(_ & _ & ?)]]; done.
        -- intros [(? & _)|[(_ & ?)|(_ & _ & ?)]]; done.
      * split; [|done]. split.
        -- intros [H|H%list_elem_of_singleton]%elem_of_cons;
             [done|]. injection H as ->. right; right. done.
        -- intros [(? & _)|[(_ & ?)|(_ & _ & [= ->])]]; try done.
           apply list_elem_of_further, list_elem_of_here.
      * split.
        -- split.
           ++ intros H%list_elem_of_singleton. done.
           ++ intros [(? & _)|[(_ & ?)|(_ & _ & ?)]]; done.
        -- intros [(? & _)|[(_ & ?)|(_ & _ & ?)]]; done.
  - split; [|done]. rewrite list_elem_of_singleton. split.
    + intros [= ->]. left. done.
    + intros [(_ & -> & _)|[(? & _)|(? & _)]]; done.
Qed.
